(** * Funngro teen page: a shallow embedding of [main.js]

    The script wires five independent components to browser events.  This
    development embeds the ones that carry behaviour: the [throttle] helper,
    the testimonial rotator, the scroll-reveal observer callback and the
    CTA signup modal (show triggers, form validation, persistence).

    Conventions.
    - A JavaScript string is the list of its UTF-16 code units ([list N]).
    - A JavaScript number that is only ever an integer or NaN in the code
      is an [option Z] ([None] is NaN); scroll positions and sizes, which
      the code multiplies and compares, are binary64 floats ([float]).
    - [null]/[undefined] values are [None] in an [option].
    - Handlers are state-passing functions; timers are data in the state and
      fire through explicit events of the event loop. *)

From Stdlib Require Import ZArith NArith QArith Qcanon List Ascii String Bool Lia.
From Stdlib Require Import PrimFloat.
From stdpp Require Import gmap list.

(* Decimal literals such as 0.45 denote the nearest double, as they do in
   JavaScript. *)
Set Warnings "-inexact-float".

Local Open Scope Z_scope.

(** ** JavaScript strings and the builtins the script calls *)

Module JS.

Abbreviation jsstring := (list N).

(** An ASCII literal of the source as code units. *)
Definition js (s : string) : jsstring :=
  List.map N_of_ascii (list_ascii_of_string s).

(** A string is truthy when it is not empty. *)
Definition str_truthy (s : jsstring) : bool :=
  match s with [] => false | _ :: _ => true end.

(** [ToBoolean] of a possibly [null]/[undefined] string. *)
Definition opt_truthy (o : option jsstring) : bool :=
  match o with Some s => str_truthy s | None => false end.

(** ECMAScript [WhiteSpace] and [LineTerminator] code units: the set used by
    [String.prototype.trim], by [parseInt] and by the regexp class [\s]. *)
Definition is_whitespace (c : N) : bool :=
  ((c =? 0x09) || (c =? 0x0A) || (c =? 0x0B) || (c =? 0x0C) || (c =? 0x0D)
   || (c =? 0x20) || (c =? 0xA0) || (c =? 0x1680)
   || ((0x2000 <=? c) && (c <=? 0x200A))
   || (c =? 0x2028) || (c =? 0x2029) || (c =? 0x202F) || (c =? 0x205F)
   || (c =? 0x3000) || (c =? 0xFEFF))%N.

Fixpoint trimStart (s : jsstring) : jsstring :=
  match s with
  | c :: r => if is_whitespace c then trimStart r else s
  | [] => []
  end.

Definition trimEnd (s : jsstring) : jsstring := rev (trimStart (rev s)).

Definition trim (s : jsstring) : jsstring := trimEnd (trimStart s).

(** [x?.trim()] *)
Definition opt_trim (o : option jsstring) : option jsstring :=
  match o with Some s => Some (trim s) | None => None end.

(** *** [parseInt(string, 10)] *)

Definition digit (c : N) : option Z :=
  if ((48 <=? c) && (c <=? 57))%N then Some (Z.of_N c - 48) else None.

(** Value of the longest prefix of decimal digits; [acc] is [None] until a
    digit has been read. *)
Fixpoint digits (s : jsstring) (acc : option Z) : option Z :=
  match s with
  | c :: r =>
      match digit c with
      | Some d => digits r (Some (10 * default 0 acc + d))
      | None => acc
      end
  | [] => acc
  end.

(** [ToString] of the argument: [null] becomes the text "null". *)
Definition ToString (o : option jsstring) : jsstring :=
  match o with Some s => s | None => js "null" end.

(** Leading white space is skipped, one sign is read, then the longest run
    of digits; no digit gives NaN.  The result is kept as an exact integer:
    the script only compares it with 0, 13 and 19, and rounding to a double
    is monotone and exact below 2^53. *)
Definition parseInt (input : option jsstring) : option Z :=
  let s := trimStart (ToString input) in
  let '(sign, s) :=
    match s with
    | 45%N :: r => (-1, r)
    | 43%N :: r => (1, r)
    | _ => (1, s)
    end in
  match digits s None with
  | Some n => Some (sign * n)
  | None => None
  end.

(** A text that does not start, after white space and one optional sign,
    with a decimal digit. *)
Definition not_numeric (s : jsstring) : Prop :=
  match trimStart s with
  | 45%N :: r | 43%N :: r => match r with c :: _ => digit c = None | [] => True end
  | c :: _ => digit c = None
  | [] => True
  end.

(** Number tests on integer-or-NaN values. *)
Definition num_truthy (x : option Z) : bool :=
  match x with Some n => negb (n =? 0) | None => false end.
Definition num_lt (x : option Z) (k : Z) : bool :=
  match x with Some n => n <? k | None => false end.
Definition num_gt (x : option Z) (k : Z) : bool :=
  match x with Some n => k <? n | None => false end.

(** *** Regular expressions: the fragment used by the email pattern

    Matching follows the backtracking semantics of ECMAScript: a matcher
    takes the current index, the rest of the input and a continuation. *)

Inductive atom :=
| Lit (c : N)      (* a literal character *)
| NotSpace.        (* \S *)

Inductive regex :=
| Bol                      (* ^ (no multiline flag) *)
| Eol                      (* $ (no multiline flag) *)
| Atom (a : atom)
| Plus (a : atom)          (* a+ , greedy *)
| Cat (r1 r2 : regex).

Definition atom_ok (a : atom) (c : N) : bool :=
  match a with
  | Lit d => (c =? d)%N
  | NotSpace => negb (is_whitespace c)
  end.

Definition cont := nat -> jsstring -> bool.

(** Greedy [a+]: take one more character while it is possible, fall back to
    the continuation otherwise. *)
Fixpoint plus_m (a : atom) (i : nat) (s : jsstring) (k : cont) : bool :=
  match s with
  | c :: r => atom_ok a c && (plus_m a (S i) r k || k (S i) r)
  | [] => false
  end.

Fixpoint matcher (r : regex) (i : nat) (s : jsstring) (k : cont) : bool :=
  match r with
  | Bol => match i with O => k i s | S _ => false end
  | Eol => match s with [] => k i s | _ :: _ => false end
  | Atom a => match s with c :: t => atom_ok a c && k (S i) t | [] => false end
  | Plus a => plus_m a i s k
  | Cat r1 r2 => matcher r1 i s (fun j t => matcher r2 j t k)
  end.

(** [re.test(s)] without flags: a match is tried at every start index. *)
Fixpoint test_from (r : regex) (i : nat) (s : jsstring) : bool :=
  matcher r i s (fun _ _ => true)
  || match s with _ :: t => test_from r (S i) t | [] => false end.

Definition test (r : regex) (s : jsstring) : bool := test_from r 0 s.

(** [/^\S+@\S+\.\S+$/] *)
Definition email_re : regex :=
  Cat Bol (Cat (Plus NotSpace) (Cat (Atom (Lit 64)) (Cat (Plus NotSpace)
    (Cat (Atom (Lit 46)) (Cat (Plus NotSpace) Eol))))).

(** [Array.prototype.join] on an array of strings. *)
Fixpoint join (sep : jsstring) (l : list jsstring) : jsstring :=
  match l with
  | [] => []
  | [x] => x
  | x :: rest => x ++ sep ++ join sep rest
  end.

(** *** [JSON.stringify] of a string ([QuoteJSONString]) *)

Definition hex_digit (n : Z) : N :=
  Z.to_N (if n <? 10 then 48 + n else 87 + n).

(** [\uXXXX] with lower-case hexadecimal digits *)
Definition unicode_escape (c : N) : jsstring :=
  let z := Z.of_N c in
  [92%N; 117%N; hex_digit (z / 4096 mod 16); hex_digit (z / 256 mod 16);
   hex_digit (z / 16 mod 16); hex_digit (z mod 16)].

Definition is_high_surrogate (c : N) : bool := ((0xD800 <=? c) && (c <=? 0xDBFF))%N.
Definition is_low_surrogate (c : N) : bool := ((0xDC00 <=? c) && (c <=? 0xDFFF))%N.

Definition escape_unit (c : N) : jsstring :=
  if (c =? 0x08)%N then [92%N; 98%N]
  else if (c =? 0x09)%N then [92%N; 116%N]
  else if (c =? 0x0A)%N then [92%N; 110%N]
  else if (c =? 0x0C)%N then [92%N; 102%N]
  else if (c =? 0x0D)%N then [92%N; 114%N]
  else if (c =? 0x22)%N then [92%N; 34%N]
  else if (c =? 0x5C)%N then [92%N; 92%N]
  else if (c <? 0x20)%N then unicode_escape c
  else [c].

(** Surrogate pairs are copied, lone surrogates are escaped. *)
Fixpoint quote_units (s : jsstring) : jsstring :=
  match s with
  | [] => []
  | c :: r =>
      if is_high_surrogate c then
        match r with
        | d :: r' =>
            if is_low_surrogate d then c :: d :: quote_units r'
            else unicode_escape c ++ quote_units r
        | [] => unicode_escape c
        end
      else if is_low_surrogate c then unicode_escape c ++ quote_units r
      else escape_unit c ++ quote_units r
  end.

Definition QuoteJSONString (s : jsstring) : jsstring :=
  [34%N] ++ quote_units s ++ [34%N].

(** *** [Date.prototype.toISOString] on a time value in milliseconds *)

Definition msPerDay : Z := 86400000.

(** Year, month and day of the proleptic Gregorian calendar for a day
    number counted from 1970-01-01. *)
Definition civil_from_days (day : Z) : Z * Z * Z :=
  let z := day + 719468 in
  let era := z / 146097 in
  let doe := z - era * 146097 in
  let yoe := (doe - doe / 1460 + doe / 36524 - doe / 146096) / 365 in
  let doy := doe - (365 * yoe + yoe / 4 - yoe / 100) in
  let mp := (5 * doy + 2) / 153 in
  let d := doy - (153 * mp + 2) / 5 + 1 in
  let m := if mp <? 10 then mp + 3 else mp - 9 in
  let y := yoe + era * 400 in
  (if m <=? 2 then y + 1 else y, m, d).

(** [n] in decimal on exactly [w] digits *)
Fixpoint dec_pad (w : nat) (n : Z) : jsstring :=
  match w with
  | O => []
  | S w' => dec_pad w' (n / 10) ++ [Z.to_N (48 + n mod 10)]
  end.

(** Years 0 to 9999 take four digits, the others a sign and six digits. *)
Definition iso_year (y : Z) : jsstring :=
  if (0 <=? y) && (y <=? 9999) then dec_pad 4 y
  else if y <? 0 then [45%N] ++ dec_pad 6 (- y)
  else [43%N] ++ dec_pad 6 y.

Definition toISOString (t : Z) : jsstring :=
  let '(y, m, d) := civil_from_days (t / msPerDay) in
  let ms := t mod msPerDay in
  iso_year y ++ js "-" ++ dec_pad 2 m ++ js "-" ++ dec_pad 2 d ++ js "T"
  ++ dec_pad 2 (ms / 3600000) ++ js ":" ++ dec_pad 2 (ms / 60000 mod 60)
  ++ js ":" ++ dec_pad 2 (ms / 1000 mod 60) ++ js "." ++ dec_pad 3 (ms mod 1000)
  ++ js "Z".

End JS.

(** ** [throttle(fn, wait)]

    The closure variables [last] and [timer] are the state.  A pending
    trailing timer is kept with its deadline and with the arguments its
    callback has captured; the variable [timer] is non-null exactly while
    that timer is pending (both branches that end it reset the variable). *)

Module Throttle.

Section Throttle.
Context {A : Type}.

Record state := State { last : Z; timer : option (Z * A) }.

(** [let last = 0; let timer = null;] *)
Definition init : state := {| last := 0; timer := None |}.

(** A call of the returned function at time [t = now()].  The result says
    with which arguments [fn] has been applied during the call, if at all. *)
Definition call (wait t : Z) (args : A) (s : state) : state * option A :=
  let remaining := wait - (t - last s) in
  if remaining <=? 0 then
    ({| last := t; timer := None |}, Some args)
  else
    match timer s with
    | None => ({| last := last s; timer := Some (t + remaining, args) |}, None)
    | Some _ => (s, None)
    end.

(** The event loop runs the timer callback at time [t], not before its
    deadline. *)
Definition fire (t : Z) (s : state) : state * option A :=
  match timer s with
  | Some (deadline, args) =>
      if deadline <=? t then ({| last := t; timer := None |}, Some args)
      else (s, None)
  | None => (s, None)
  end.

(** Traces of the throttled function: calls with their arguments and
    visits of the event loop to the timer queue, each at a time stamp. *)
Inductive event :=
| Call (t : Z) (args : A)
| Loop (t : Z).

Inductive edge := Leading | Trailing.

(** One application of [fn]: when, on which edge, with which arguments. *)
Record exec := Exec { at_time : Z; on_edge : edge; with_args : A }.

Definition time_of (e : event) : Z :=
  match e with Call t _ => t | Loop t => t end.

Definition step (wait : Z) (e : event) (s : state) : state * list exec :=
  match e with
  | Call t args =>
      let '(s', r) := call wait t args s in
      (s', match r with Some a => [Exec t Leading a] | None => [] end)
  | Loop t =>
      let '(s', r) := fire t s in
      (s', match r with Some a => [Exec t Trailing a] | None => [] end)
  end.

Fixpoint run (wait : Z) (evs : list event) (s : state) : state * list exec :=
  match evs with
  | [] => (s, [])
  | e :: rest =>
      let '(s1, l1) := step wait e s in
      let '(s2, l2) := run wait rest s1 in
      (s2, l1 ++ l2)
  end.

(** Successive applications of [fn] are at least [wait] apart, the first
    one at least [wait] after [t0]. *)
Fixpoint spaced (wait t0 : Z) (l : list exec) : Prop :=
  match l with
  | [] => True
  | x :: rest => t0 + wait <= at_time x /\ spaced wait (at_time x) rest
  end.

(** The applications of [fn] that fall in the window [x, x + wait). *)
Definition in_window_execs (wait x : Z) (l : list exec) : list exec :=
  List.filter (fun e => (x <=? at_time e) && (at_time e <? x + wait)) l.

(** A burst: events that all happen in the window opened at [t0]. *)
Definition in_window (wait t0 : Z) (burst : list event) : Prop :=
  Forall (fun e => t0 <= time_of e /\ time_of e < t0 + wait) burst.

(** Arguments of the first and of the final call of a burst. *)
Fixpoint first_call (burst : list event) : option A :=
  match burst with
  | [] => None
  | Call _ a :: _ => Some a
  | Loop _ :: rest => first_call rest
  end.

Definition final_call (burst : list event) : option A := first_call (rev burst).

End Throttle.

Arguments state : clear implicits.
Arguments event : clear implicits.
Arguments exec : clear implicits.

End Throttle.

(** ** Rotating testimonials *)

Module Rotator.
Import JS.

Record Testimonial := { text : jsstring; author : jsstring }.

(** The rupee sign is U+20B9 and the dash before each author is U+2014. *)
Definition testimonials : list Testimonial :=
  [ {| text := js "I earned my first " ++ [0x20B9%N]
                 ++ js "2000 within a week. Best platform for teens!";
       author := [0x2014%N] ++ js " Aarav, 16" |};
    {| text := js "Work is simple & flexible. Perfect for students.";
       author := [0x2014%N] ++ js " Sana, 17" |};
    {| text := js "Funngro helped me improve my writing & earn consistently.";
       author := [0x2014%N] ++ js " Rohan, 15" |} ].

(** [reviewEl.textContent], [authorEl.textContent] (when the author element
    exists) and the closure variable [idx]. *)
Record state := {
  review_text : jsstring;
  has_author : bool;
  author_text : jsstring;
  idx : nat
}.

Section Generic.
Variable items : list Testimonial.

(** [set(i)]; reading past the array gives [undefined], whose [.text]
    throws: that is [None]. *)
Definition set_in (i : nat) (st : state) : option state :=
  match items !! (i mod length items)%nat with
  | Some r =>
      Some {| review_text := text r;
              has_author := has_author st;
              author_text := if has_author st then author r else author_text st;
              idx := ((i + 1) mod length items)%nat |}
  | None => None
  end.

(** The interval callback [() => set(idx)]. *)
Definition advance_in (st : state) : option state := set_in (idx st) st.

(** [n] ticks of the interval. *)
Fixpoint advance_n_in (n : nat) (st : state) : option state :=
  match n with
  | O => Some st
  | S n' =>
      match advance_in st with
      | Some st' => advance_n_in n' st'
      | None => None
      end
  end.

End Generic.

Definition set := set_in testimonials.
Definition advance := advance_in testimonials.
Definition advance_n := advance_n_in testimonials.

(** [setupTestimonials]: nothing without the review element, else [set(0)].
    The interval, which is not started under reduced motion and is paused
    while the element is hovered or focused, only decides when [advance]
    runs. *)
Definition setupTestimonials (has_review : bool) (st : state) : option state :=
  if has_review then set 0 st else Some st.

(** The testimonial on display, as an index in the list: the one whose text
    is in the review element. *)
Definition displays (st : state) (k : nat) : Prop :=
  exists r, testimonials !! k = Some r /\ review_text st = text r
            /\ (has_author st = true -> author_text st = author r).

End Rotator.

(** ** Scroll reveal

    Elements are numbered; [active] holds the elements whose class list has
    "active", [observed] the targets of the intersection observer. *)

Module Reveal.

Record state := { active : gset nat; observed : gset nat }.

(** An [IntersectionObserverEntry]: the browser computes [isIntersecting]
    for the observer's threshold, 0.12. *)
Record entry := { target : nat; isIntersecting : bool }.

Definition on_entry (st : state) (e : entry) : state :=
  if isIntersecting e then
    {| active := {[ target e ]} ∪ active st;
       observed := observed st ∖ {[ target e ]} |}
  else st.

(** The observer callback: [entries.forEach(...)]. *)
Definition callback (entries : list entry) (st : state) : state :=
  foldl on_entry st entries.

(** [setupScrollReveal] on the elements matched by the selector. *)
Definition setupScrollReveal (prefersReducedMotion : bool) (revealNodes : list nat)
    (st : state) : state :=
  if (length revealNodes =? 0)%nat || prefersReducedMotion then
    {| active := list_to_set revealNodes ∪ active st; observed := observed st |}
  else
    {| active := active st; observed := list_to_set revealNodes ∪ observed st |}.

(** The browser only reports targets that are observed at that time. *)
Definition deliver (entries : list entry) (st : state) : state :=
  callback (List.filter (fun e => bool_decide (target e ∈ observed st)) entries) st.

(** A revealed element: marked active and no longer observed. *)
Definition revealed (el : nat) (st : state) : Prop :=
  el ∈ active st /\ el ∉ observed st.

End Reveal.

(** ** The CTA modal *)

Module CTA.
Import JS.

(** The object handed to [validateForm]. *)
Record FormInput := {
  name : option jsstring;
  age : option jsstring;
  email : option jsstring
}.

Definition name_error : jsstring := js "Please enter a valid name.".
Definition age_error : jsstring := js "Age must be between 13 and 19.".
Definition email_error : jsstring := js "If provided, email must be valid.".

(** The three tests of [validateForm], in source order. *)
Definition name_fails (data : FormInput) : bool :=
  match name data with
  | Some n => negb (str_truthy n) || (length (trim n) <? 2)%nat
  | None => true
  end.

Definition age_fails (data : FormInput) : bool :=
  let age := parseInt (age data) in
  negb (num_truthy age) || num_lt age 13 || num_gt age 19.

Definition email_fails (data : FormInput) : bool :=
  match email data with
  | Some e => str_truthy e && negb (test email_re e)
  | None => false
  end.

Definition validateForm (data : FormInput) : list jsstring :=
  let errors := [] in
  let errors := if name_fails data then errors ++ [name_error] else errors in
  let errors := if age_fails data then errors ++ [age_error] else errors in
  let errors := if email_fails data then errors ++ [email_error] else errors in
  errors.

(** What [new FormData(form)] holds for the three fields; [get] returns
    [null] for a field that is not there. *)
Record FormData := {
  fd_name : option jsstring;
  fd_age : option jsstring;
  fd_email : option jsstring
}.

Definition payload_of (fd : FormData) : FormInput :=
  {| name := opt_trim (fd_name fd);
     age := fd_age fd;
     email := opt_trim (fd_email fd) |}.

(** [JSON.stringify({ name: ..., joinedAt: ... })]; a property whose value is
    [undefined] is left out. *)
Definition stringify_record (name : option jsstring) (joinedAt : jsstring) : jsstring :=
  js "{"
  ++ match name with
     | Some n => QuoteJSONString (js "name") ++ js ":" ++ QuoteJSONString n ++ js ","
     | None => []
     end
  ++ QuoteJSONString (js "joinedAt") ++ js ":" ++ QuoteJSONString joinedAt
  ++ js "}".

(** Callbacks of the two [setTimeout] calls of the submit handler. *)
Inductive action :=
| WriteRecord (payload_name : option jsstring)   (* after 900 ms *)
| CloseAfterWelcome.                             (* after a further 1400 ms *)

(** The page as far as the modal is concerned.  [window.scrollY] and
    [window.innerHeight] are doubles, multiplied and compared as doubles.
    [opens] is a ghost counter of the calls of [openModal]. *)
Record Page := {
  localStorage : gmap jsstring jsstring;
  clock : Z;
  scrollY : float;
  innerHeight : float;
  has_modal : bool;          (* $("#cta-modal") is not null *)
  wired : bool;              (* the body of [if (!$("#cta-modal"))] has run *)
  modal_open : bool;         (* modal.classList contains "open" *)
  body_overflow : jsstring;  (* document.body.style.overflow *)
  shown : bool;
  timed : option Z;          (* deadline of the show timer while pending *)
  scroll_throttle : Throttle.state unit;
  feedback_text : jsstring;
  feedback_error : bool;     (* feedback.classList contains "error" *)
  timeouts : list (Z * action);
  opens : nat
}.

Definition set_storage (m : gmap jsstring jsstring) (p : Page) : Page :=
  {| localStorage := m; clock := clock p; scrollY := scrollY p;
     innerHeight := innerHeight p; has_modal := has_modal p; wired := wired p;
     modal_open := modal_open p; body_overflow := body_overflow p;
     shown := shown p; timed := timed p; scroll_throttle := scroll_throttle p;
     feedback_text := feedback_text p; feedback_error := feedback_error p;
     timeouts := timeouts p; opens := opens p |}.

Definition set_window (t : Z) (y : float) (h : float) (p : Page) : Page :=
  {| localStorage := localStorage p; clock := t; scrollY := y;
     innerHeight := h; has_modal := has_modal p; wired := wired p;
     modal_open := modal_open p; body_overflow := body_overflow p;
     shown := shown p; timed := timed p; scroll_throttle := scroll_throttle p;
     feedback_text := feedback_text p; feedback_error := feedback_error p;
     timeouts := timeouts p; opens := opens p |}.

Definition set_modal (open : bool) (overflow : jsstring) (n : nat) (p : Page) : Page :=
  {| localStorage := localStorage p; clock := clock p; scrollY := scrollY p;
     innerHeight := innerHeight p; has_modal := has_modal p; wired := wired p;
     modal_open := open; body_overflow := overflow;
     shown := shown p; timed := timed p; scroll_throttle := scroll_throttle p;
     feedback_text := feedback_text p; feedback_error := feedback_error p;
     timeouts := timeouts p; opens := n |}.

Definition set_shown (b : bool) (p : Page) : Page :=
  {| localStorage := localStorage p; clock := clock p; scrollY := scrollY p;
     innerHeight := innerHeight p; has_modal := has_modal p; wired := wired p;
     modal_open := modal_open p; body_overflow := body_overflow p;
     shown := b; timed := timed p; scroll_throttle := scroll_throttle p;
     feedback_text := feedback_text p; feedback_error := feedback_error p;
     timeouts := timeouts p; opens := opens p |}.

Definition set_timed (d : option Z) (p : Page) : Page :=
  {| localStorage := localStorage p; clock := clock p; scrollY := scrollY p;
     innerHeight := innerHeight p; has_modal := has_modal p; wired := wired p;
     modal_open := modal_open p; body_overflow := body_overflow p;
     shown := shown p; timed := d; scroll_throttle := scroll_throttle p;
     feedback_text := feedback_text p; feedback_error := feedback_error p;
     timeouts := timeouts p; opens := opens p |}.

Definition set_throttle (s : Throttle.state unit) (p : Page) : Page :=
  {| localStorage := localStorage p; clock := clock p; scrollY := scrollY p;
     innerHeight := innerHeight p; has_modal := has_modal p; wired := wired p;
     modal_open := modal_open p; body_overflow := body_overflow p;
     shown := shown p; timed := timed p; scroll_throttle := s;
     feedback_text := feedback_text p; feedback_error := feedback_error p;
     timeouts := timeouts p; opens := opens p |}.

Definition set_feedback (txt : jsstring) (err : bool) (p : Page) : Page :=
  {| localStorage := localStorage p; clock := clock p; scrollY := scrollY p;
     innerHeight := innerHeight p; has_modal := has_modal p; wired := wired p;
     modal_open := modal_open p; body_overflow := body_overflow p;
     shown := shown p; timed := timed p; scroll_throttle := scroll_throttle p;
     feedback_text := txt; feedback_error := err;
     timeouts := timeouts p; opens := opens p |}.

Definition set_timeouts (l : list (Z * action)) (p : Page) : Page :=
  {| localStorage := localStorage p; clock := clock p; scrollY := scrollY p;
     innerHeight := innerHeight p; has_modal := has_modal p; wired := wired p;
     modal_open := modal_open p; body_overflow := body_overflow p;
     shown := shown p; timed := timed p; scroll_throttle := scroll_throttle p;
     feedback_text := feedback_text p; feedback_error := feedback_error p;
     timeouts := l; opens := opens p |}.

(** [setTimeout(cb, delay)] for the submit handler's callbacks. *)
Definition setTimeout (a : action) (delay : Z) (p : Page) : Page :=
  set_timeouts (timeouts p ++ [(clock p + delay, a)]) p.

(** The default of the [storageKey] parameter. *)
Definition default_key : jsstring := js "funngro_teen_joined".

Section WithKey.
Variable storageKey : jsstring.

(** [localStorage.getItem(storageKey)] as a condition. *)
Definition joined (p : Page) : bool := opt_truthy (localStorage p !! storageKey).

Definition openModal (p : Page) : Page :=
  set_modal true (js "hidden") (S (opens p)) p.

Definition closeModal (p : Page) : Page :=
  set_modal false [] (opens p) p.

Definition showAfter (p : Page) : Page :=
  if shown p || joined p then p
  else openModal (set_shown true p).

(** [window.scrollY > window.innerHeight * 0.45]: the product is rounded
    to a double, and the comparison is false on NaN. *)
Definition past_threshold (p : Page) : bool :=
  PrimFloat.ltb (PrimFloat.mul (innerHeight p) 0.45) (scrollY p).

(** The function wrapped by [throttle(..., 250)]. *)
Definition scrollHandler (p : Page) : Page :=
  if past_threshold p then showAfter (set_timed None p) else p.

(** [setupCTAModal]: nothing when a record is stored, nothing when the page
    already has an element [#cta-modal]; otherwise the modal is built
    closed, the show timer is armed and the listeners are registered. *)
Definition setupCTAModal (p : Page) : Page :=
  if joined p then p
  else if has_modal p then p
  else
    {| localStorage := localStorage p; clock := clock p; scrollY := scrollY p;
       innerHeight := innerHeight p; has_modal := true; wired := true;
       modal_open := false; body_overflow := body_overflow p;
       shown := false; timed := Some (clock p + 6000);
       scroll_throttle := Throttle.init;
       feedback_text := []; feedback_error := false;
       timeouts := timeouts p; opens := opens p |}.

(** The throttled scroll listener. *)
Definition on_scroll (p : Page) : Page :=
  let '(th, r) := Throttle.call 250 (clock p) tt (scroll_throttle p) in
  match r with
  | Some _ => scrollHandler (set_throttle th p)
  | None => set_throttle th p
  end.

(** The trailing timer of the throttled listener. *)
Definition on_throttle_timer (p : Page) : Page :=
  let '(th, r) := Throttle.fire (clock p) (scroll_throttle p) in
  match r with
  | Some _ => scrollHandler (set_throttle th p)
  | None => p
  end.

(** The callback of [setTimeout(showAfter, 6000)], once it is due. *)
Definition on_show_timer (p : Page) : Page :=
  match timed p with
  | Some d => if d <=? clock p then showAfter (set_timed None p) else p
  | None => p
  end.

(** The submit listener of the form. *)
Definition on_submit (fd : FormData) (p : Page) : Page :=
  let payload := payload_of fd in
  let errors := validateForm payload in
  if (0 <? length errors)%nat then
    set_feedback (join (js " ") errors) true p
  else
    setTimeout (WriteRecord (name payload)) 900
      (set_feedback (js "Submitting...") false p).

Definition run_action (a : action) (p : Page) : Page :=
  match a with
  | WriteRecord payload_name =>
      let p := set_storage
                 (<[storageKey := stringify_record payload_name (toISOString (clock p))]>
                    (localStorage p)) p in
      let p := set_feedback (js "Welcome aboard! Check your dashboard for gigs.")
                 (feedback_error p) p in
      setTimeout CloseAfterWelcome 1400 p
  | CloseAfterWelcome => set_modal false [] (opens p) p
  end.

(** The event loop runs the [i]-th pending callback of the submit handler,
    not before its deadline. *)
Definition on_timeout (i : nat) (p : Page) : Page :=
  match timeouts p !! i with
  | Some (d, a) =>
      if d <=? clock p then run_action a (set_timeouts (delete i (timeouts p)) p)
      else p
  | None => p
  end.

(** What can happen to the page.  [ScrollEvent] is any dispatch of "scroll",
    the synthetic one of [init] included; the storage events are writes of
    another browsing context of the same origin. *)
Inductive event :=
| Elapse (t : Z)
| ScrollTo (y : float)
| ScrollEvent
| Resize (h : float)
| ShowTimer
| ThrottleTimer
| Timeout (i : nat)
| Submit (fd : FormData)
| ClickClose
| ClickBackdrop
| ClickLater
| KeyEscape
| StorageSet (k v : jsstring)
| StorageRemove (k : jsstring).

(** Listeners exist only when the component has been constructed. *)
Definition step (e : event) (p : Page) : Page :=
  match e with
  | Elapse t => set_window (Z.max (clock p) t) (scrollY p) (innerHeight p) p
  | Resize h => set_window (clock p) (scrollY p) h p
  | StorageSet k v => set_storage (<[k := v]> (localStorage p)) p
  | StorageRemove k => set_storage (delete k (localStorage p)) p
  | ScrollTo y =>
      let p := set_window (clock p) y (innerHeight p) p in
      if wired p then on_scroll p else p
  | ScrollEvent => if wired p then on_scroll p else p
  | ShowTimer => if wired p then on_show_timer p else p
  | ThrottleTimer => if wired p then on_throttle_timer p else p
  | Timeout i => if wired p then on_timeout i p else p
  | Submit fd => if wired p then on_submit fd p else p
  | ClickClose | ClickBackdrop | ClickLater =>
      if wired p then closeModal p else p
  | KeyEscape => if wired p && modal_open p then closeModal p else p
  end.

Definition run (evs : list event) (p : Page) : Page :=
  foldl (fun q e => step e q) p evs.

End WithKey.

(** What the markup of a page decides before the script runs: whether it
    already has an element [#cta-modal], whether that element carries the
    class "open", and the inline [overflow] of the body. *)
Record Markup := {
  with_modal : bool;
  marked_open : bool;
  overflow : jsstring
}.

(** A page that has an element [#cta-modal], not marked open. *)
Definition present : Markup :=
  {| with_modal := true; marked_open := false; overflow := [] |}.

(** A page without [#cta-modal] and without inline overflow. *)
Definition plain : Markup :=
  {| with_modal := false; marked_open := false; overflow := [] |}.

(** The page when the script starts: nothing constructed, no timer; the
    modal's class and the body's overflow are the markup's. *)
Definition page_load (storage : gmap jsstring jsstring) (t : Z) (y : float)
    (h : float) (markup : Markup) : Page :=
  {| localStorage := storage; clock := t; scrollY := y; innerHeight := h;
     has_modal := with_modal markup; wired := false;
     modal_open := with_modal markup && marked_open markup;
     body_overflow := overflow markup; shown := false; timed := None;
     scroll_throttle := Throttle.init; feedback_text := [];
     feedback_error := false; timeouts := []; opens := 0 |}.

(** The modal has just been opened, for the first time. *)
Definition opened (p : Page) : Prop :=
  modal_open p = true /\ shown p = true /\ opens p = 1%nat.

(** An event by which another browsing context changes the entry of [key]. *)
Definition touches (key : jsstring) (e : event) : Prop :=
  match e with
  | StorageSet k _ | StorageRemove k => k = key
  | _ => False
  end.

(** A rejected submission: only the feedback element changes, to the joined
    messages with the error class; no record is written and no callback is
    scheduled, the modal stays as it is. *)
Definition rejected (fd : FormData) (before after : Page) : Prop :=
  after = set_feedback (join (js " ") (validateForm (payload_of fd))) true before
  /\ localStorage after = localStorage before
  /\ timeouts after = timeouts before
  /\ modal_open after = modal_open before
  /\ feedback_error after = true.

(** The email pattern in words: three non-empty runs of non-space characters
    separated by "@" and by ".". *)
Definition nonspace (s : jsstring) : Prop :=
  s <> [] /\ Forall (fun c => is_whitespace c = false) s.

Definition email_shape (s : jsstring) : Prop :=
  exists a b c, s = a ++ [64%N] ++ b ++ [46%N] ++ c
                /\ nonspace a /\ nonspace b /\ nonspace c.

End CTA.

(** ** Reading a stored record back

    These definitions do not come from the script, which never reads the
    record's fields.  They say what it means for the stored text to hold a
    name and a time: [read_record] reads the two string fields of the text
    as [JSON.parse] does, [read_iso] reads a time value from the ISO format
    as [Date.parse] does. *)

Module Reading.
Import JS.

Definition unhex (u : N) : option Z :=
  if ((48 <=? u) && (u <=? 57))%N then Some (Z.of_N u - 48)
  else if ((97 <=? u) && (u <=? 102))%N then Some (Z.of_N u - 87)
  else if ((65 <=? u) && (u <=? 70))%N then Some (Z.of_N u - 55)
  else None.

Definition unhex4 (a b c d : N) : option N :=
  match unhex a, unhex b, unhex c, unhex d with
  | Some x3, Some x2, Some x1, Some x0 =>
      Some (Z.to_N (x3 * 4096 + x2 * 256 + x1 * 16 + x0))
  | _, _, _, _ => None
  end.

(** The character after a backslash, [u] apart. *)
Definition unescape (e : N) : option N :=
  if (e =? 98)%N then Some 0x08%N
  else if (e =? 116)%N then Some 0x09%N
  else if (e =? 110)%N then Some 0x0A%N
  else if (e =? 102)%N then Some 0x0C%N
  else if (e =? 114)%N then Some 0x0D%N
  else if (e =? 34)%N then Some 34%N
  else if (e =? 92)%N then Some 92%N
  else if (e =? 47)%N then Some 47%N
  else None.

(** A JSON string after its opening quote: the text up to the closing
    quote, with the escapes undone, and what follows the closing quote.
    A control character must be escaped. *)
Fixpoint read_string (s : jsstring) : option (jsstring * jsstring) :=
  match s with
  | [] => None
  | c :: r =>
      if (c =? 34)%N then Some ([], r)
      else if (c =? 92)%N then
        match r with
        | [] => None
        | e :: r1 =>
            if (e =? 117)%N then
              match r1 with
              | h3 :: h2 :: h1 :: h0 :: r2 =>
                  match unhex4 h3 h2 h1 h0, read_string r2 with
                  | Some u, Some (t, rest) => Some (u :: t, rest)
                  | _, _ => None
                  end
              | _ => None
              end
            else
              match unescape e, read_string r1 with
              | Some u, Some (t, rest) => Some (u :: t, rest)
              | _, _ => None
              end
        end
      else if (c <? 32)%N then None
      else
        match read_string r with
        | Some (t, rest) => Some (c :: t, rest)
        | None => None
        end
  end.

(** [s] without the prefix [pre]. *)
Fixpoint after_prefix (pre s : jsstring) : option jsstring :=
  match pre, s with
  | [], _ => Some s
  | c :: pre', x :: s' => if (x =? c)%N then after_prefix pre' s' else None
  | _ :: _, [] => None
  end.

(** The name and the time text of an object with the two string fields
    "name" and "joinedAt", in this order and without white space. *)
Definition read_record (s : jsstring) : option (jsstring * jsstring) :=
  match after_prefix (js "{" ++ QuoteJSONString (js "name") ++ js ":" ++ [34%N]) s with
  | Some s1 =>
      match read_string s1 with
      | Some (name, s2) =>
          match after_prefix (js "," ++ QuoteJSONString (js "joinedAt") ++ js ":"
                              ++ [34%N]) s2 with
          | Some s3 =>
              match read_string s3 with
              | Some (joinedAt, s4) =>
                  match after_prefix (js "}") s4 with
                  | Some [] => Some (name, joinedAt)
                  | _ => None
                  end
              | None => None
              end
          | None => None
          end
      | None => None
      end
  | None => None
  end.

(** The day number, counted from 1970-01-01, of a date of the proleptic
    Gregorian calendar. *)
Definition days_from_civil (y m d : Z) : Z :=
  let y := if m <=? 2 then y - 1 else y in
  let era := y / 400 in
  let yoe := y - era * 400 in
  let mp := if 2 <? m then m - 3 else m + 9 in
  let doy := (153 * mp + 2) / 5 + d - 1 in
  let doe := yoe * 365 + yoe / 4 - yoe / 100 + doy in
  era * 146097 + doe - 719468.

(** Exactly [w] decimal digits. *)
Fixpoint read_digits (w : nat) (acc : Z) (s : jsstring) : option (Z * jsstring) :=
  match w with
  | O => Some (acc, s)
  | S w' =>
      match s with
      | c :: r =>
          match digit c with
          | Some d => read_digits w' (10 * acc + d) r
          | None => None
          end
      | [] => None
      end
  end.

Definition read_unit (c : N) (s : jsstring) : option jsstring :=
  match s with
  | x :: r => if (x =? c)%N then Some r else None
  | [] => None
  end.

(** Four digits, or a sign and six digits. *)
Definition read_year (s : jsstring) : option (Z * jsstring) :=
  match s with
  | c :: r =>
      if (c =? 45)%N then
        match read_digits 6 0 r with
        | Some (y, rest) => Some (- y, rest)
        | None => None
        end
      else if (c =? 43)%N then read_digits 6 0 r
      else read_digits 4 0 s
  | [] => None
  end.

(** The time value of a text of the form YYYY-MM-DDTHH:mm:ss.sssZ. *)
Definition read_iso (s : jsstring) : option Z :=
  '(y, s) ← read_year s;
  s ← read_unit 45 s;
  '(m, s) ← read_digits 2 0 s;
  s ← read_unit 45 s;
  '(d, s) ← read_digits 2 0 s;
  s ← read_unit 84 s;
  '(hh, s) ← read_digits 2 0 s;
  s ← read_unit 58 s;
  '(mm, s) ← read_digits 2 0 s;
  s ← read_unit 58 s;
  '(ss, s) ← read_digits 2 0 s;
  s ← read_unit 46 s;
  '(ms, s) ← read_digits 3 0 s;
  s ← read_unit 90 s;
  match s with
  | [] => Some (days_from_civil y m d * msPerDay
                + ((hh * 60 + mm) * 60 + ss) * 1000 + ms)
  | _ :: _ => None
  end.

(** The range of time values of a [Date]. *)
Definition date_range (t : Z) : Prop :=
  -8640000000000000 <= t <= 8640000000000000.

End Reading.

(** ** Further components: helpers, navigation highlight, mobile menu,
    the rotator's interval *)

Module Util.

(** [Math.max] and [Math.min] on finite numbers (no NaN), which they
    compute without rounding. *)
Definition max (x y : Qc) : Qc := if bool_decide (x < y)%Qc then y else x.
Definition min (x y : Qc) : Qc := if bool_decide (y < x)%Qc then y else x.

(** [clamp(v, a, b)] *)
Definition clamp (v a b : Qc) : Qc := min (max v a) b.

End Util.

Module Nav.

(** [window.scrollY + window.innerHeight * 0.28], on doubles: the product
    is rounded, then the sum. *)
Definition line (scrollY innerHeight : float) : float :=
  PrimFloat.add scrollY (PrimFloat.mul innerHeight 0.28).

(** [sections.forEach((sec, i) => ...)]: [rects] holds [rect.top] of every
    tracked section, [activeIndex] is [None] for -1. *)
Fixpoint scan (scrollY top : float) (rects : list float) (i : nat)
    (activeIndex : option nat) : option nat :=
  match rects with
  | [] => activeIndex
  | rect_top :: rest =>
      let absTop := PrimFloat.add scrollY rect_top in
      scan scrollY top rest (S i)
        (if PrimFloat.leb absTop top then Some i else activeIndex)
  end.

(** [navLinks.forEach((a, i) => ...)] on the "active" class of each link. *)
Definition mark (activeIndex : option nat) (links : list bool) : list bool :=
  imap (fun i _ => bool_decide (activeIndex = Some i)) links.

(** The function wrapped by [throttle(..., 120)]. *)
Definition highlight (scrollY innerHeight : float) (rects : list float)
    (links : list bool) : list bool :=
  mark (scan scrollY (line scrollY innerHeight) rects 0 None) links.

(** Each link resolves to a section element or to [null];
    [.filter(Boolean)] keeps the elements. *)
Definition sections (targets : list (option nat)) : list nat := omap id targets.

(** The guard of the listener registration. *)
Definition installed (targets : list (option nat)) (prefersReducedMotion : bool) : bool :=
  negb (length targets =? 0)%nat && negb (length (sections targets) =? 0)%nat
  && negb prefersReducedMotion.

End Nav.

Module Menu.

(** The header's menu: the toggle's [aria-expanded], the header's class
    "nav-open"; [focus_calls] counts the calls of [btn.focus()]. *)
Record state := {
  has_header : bool;
  has_toggle : bool;      (* $("#mobile-nav-toggle") is not null *)
  listening : bool;       (* the listeners of this function exist *)
  expanded : bool;
  nav_open : bool;
  focus_calls : nat
}.

Definition setupMobileMenu (st : state) : state :=
  if negb (has_header st) then st
  else if has_toggle st then st
  else {| has_header := true; has_toggle := true; listening := true;
          expanded := false; nav_open := nav_open st;
          focus_calls := focus_calls st |}.

(** Clicks are told apart by their target: the toggle, elsewhere inside the
    header, outside the header. *)
Inductive event :=
| ClickToggle
| ClickInside
| ClickOutside
| KeyDown (escape : bool).

Definition close (refocus : bool) (st : state) : state :=
  {| has_header := has_header st; has_toggle := has_toggle st;
     listening := listening st; expanded := false; nav_open := false;
     focus_calls := if refocus then S (focus_calls st) else focus_calls st |}.

Definition step (e : event) (st : state) : state :=
  if negb (listening st) then st
  else
    match e with
    | ClickToggle =>
        (* the button's listener; the document's one finds the target in
           the header *)
        {| has_header := has_header st; has_toggle := has_toggle st;
           listening := listening st; expanded := negb (expanded st);
           nav_open := negb (expanded st); focus_calls := focus_calls st |}
    | ClickInside => st
    | ClickOutside => if nav_open st then close false st else st
    | KeyDown escape => if escape && nav_open st then close true st else st
    end.

Definition run (evs : list event) (st : state) : state :=
  foldl (fun s e => step e s) st evs.

End Menu.

Module Interval.
Import Rotator.

(** The rotator with its interval: the closure variable [timer] and the
    intervals of the page that are running.  Interval ids are positive. *)
Record page := {
  rot : state;
  timer : option positive;
  running : gset positive;
  next_id : positive;
  listening : bool
}.

(** [setInterval(() => set(idx), interval)] *)
Definition setInterval (p : page) : page :=
  {| rot := rot p; timer := Some (next_id p);
     running := {[ next_id p ]} ∪ running p;
     next_id := Pos.succ (next_id p); listening := listening p |}.

(** [timer && clearInterval(timer)]: the variable keeps the id. *)
Definition pause (p : page) : page :=
  match timer p with
  | Some id =>
      {| rot := rot p; timer := timer p; running := running p ∖ {[ id ]};
         next_id := next_id p; listening := listening p |}
  | None => p
  end.

(** [setupTestimonials] with the interval. *)
Definition setup (has_review prefersReducedMotion : bool) (p : page) : page :=
  if has_review then
    match set 0 (rot p) with
    | Some r =>
        let p := {| rot := r; timer := None; running := running p;
                    next_id := next_id p; listening := false |} in
        if prefersReducedMotion then p
        else
          let p := setInterval p in
          {| rot := rot p; timer := timer p; running := running p;
             next_id := next_id p; listening := true |}
    | None => p
    end
  else p.

Inductive event :=
| MouseEnter
| MouseLeave
| Focus
| Blur
| Tick (id : positive).     (* an interval of the page comes due *)

Definition step (e : event) (p : page) : page :=
  match e with
  | MouseEnter | Focus => if listening p then pause p else p
  | MouseLeave | Blur => if listening p then setInterval p else p
  | Tick id =>
      if bool_decide (id ∈ running p) then
        match advance (rot p) with
        | Some r =>
            {| rot := r; timer := timer p; running := running p;
               next_id := next_id p; listening := listening p |}
        | None => p
        end
      else p
  end.

Definition run (evs : list event) (p : page) : page :=
  foldl (fun q e => step e q) p evs.

(** The page before the script runs: no interval of the rotator. *)
Definition blank (has_author : bool) : page :=
  {| rot := {| review_text := []; has_author := has_author; author_text := [];
               idx := 0 |};
     timer := None; running := ∅; next_id := 1%positive; listening := false |}.

Definition is_pause (e : event) : bool :=
  match e with MouseEnter | Focus => true | _ => false end.
Definition is_resume (e : event) : bool :=
  match e with MouseLeave | Blur => true | _ => false end.

(** Pointer and focus events in which every resume follows a pause: [busy]
    says whether the interval is running before the first event. *)
Fixpoint alternating (busy : bool) (evs : list event) : Prop :=
  match evs with
  | [] => True
  | e :: rest =>
      if is_pause e then alternating false rest
      else if is_resume e then busy = false /\ alternating true rest
      else alternating busy rest
  end.

End Interval.


(** * Properties *)

(** ** Strings, [parseInt] and the email pattern *)

Module JSFacts.
Import JS.

(** Nothing to trim at the front: empty, or a first unit that is no space. *)
Definition clean_front (s : jsstring) : Prop :=
  match s with [] => True | c :: _ => is_whitespace c = false end.

Lemma trimStart_clean s : clean_front (trimStart s).
Proof.
  induction s as [|c r IH]; simpl; [exact I|].
  destruct (is_whitespace c) eqn:E; [exact IH | simpl; exact E].
Qed.

Lemma trimStart_id s : clean_front s -> trimStart s = s.
Proof. destruct s as [|c r]; simpl; [reflexivity|]. intros ->. reflexivity. Qed.

Lemma trimStart_snoc s c :
  is_whitespace c = false -> trimStart (s ++ [c]) = trimStart s ++ [c].
Proof.
  intros Hc. induction s as [|d r IH]; simpl.
  - rewrite Hc. reflexivity.
  - destruct (is_whitespace d); [exact IH | reflexivity].
Qed.

Lemma trimEnd_clean_front s : clean_front s -> clean_front (trimEnd s).
Proof.
  unfold trimEnd. destruct s as [|c r]; simpl; [intros _; exact I|].
  intros Hc. rewrite trimStart_snoc by exact Hc.
  rewrite rev_app_distr. simpl. exact Hc.
Qed.

Lemma trim_idempotent s : trim (trim s) = trim s.
Proof.
  unfold trim.
  assert (H1 : clean_front (trimEnd (trimStart s)))
    by (apply trimEnd_clean_front, trimStart_clean).
  rewrite (trimStart_id _ H1).
  unfold trimEnd at 1 2. rewrite rev_involutive.
  rewrite (trimStart_id (trimStart _)) by apply trimStart_clean.
  reflexivity.
Qed.

Lemma opt_trim_idempotent o : opt_trim (opt_trim o) = opt_trim o.
Proof. destruct o; simpl; [rewrite trim_idempotent|]; reflexivity. Qed.

(** [a+] followed by [k] succeeds exactly when the input splits into a
    non-empty run of [a] and a rest accepted by [k]. *)
Lemma plus_m_spec a k s : forall i,
  plus_m a i s k = true <->
  exists pre post, s = pre ++ post /\ pre <> []
    /\ Forall (fun c => atom_ok a c = true) pre
    /\ k (i + length pre)%nat post = true.
Proof.
  induction s as [|c r IH]; intros i; simpl.
  - split; [discriminate|]. intros (pre & post & E & Hne & _).
    destruct pre; [congruence | discriminate].
  - rewrite andb_true_iff, orb_true_iff, IH. split.
    + intros [Hc [(pre & post & -> & Hne & Hall & Hk) | Hk]].
      * exists (c :: pre), post. repeat split; [discriminate | by constructor |].
        simpl. replace (i + S (length pre))%nat with (S i + length pre)%nat by lia.
        exact Hk.
      * exists [c], r. repeat split; [discriminate | by repeat constructor |].
        simpl. replace (i + 1)%nat with (S i) by lia. exact Hk.
    + intros (pre & post & E & Hne & Hall & Hk).
      destruct pre as [|c' pre]; [congruence|]. simpl in E. injection E as <- ->.
      inversion Hall as [|? ? Hc Hall']; subst. split; [exact Hc|].
      destruct pre as [|d pre].
      * right. simpl in Hk. replace (i + 1)%nat with (S i) in Hk by lia. exact Hk.
      * left. exists (d :: pre), post. repeat split; [discriminate | exact Hall' |].
        simpl in *. replace (S (i + S (length pre))) with (i + S (S (length pre)))%nat by lia.
        exact Hk.
Qed.

Lemma notspace_run s :
  (s <> [] /\ Forall (fun c => atom_ok NotSpace c = true) s)
  <-> (s <> [] /\ Forall (fun c => is_whitespace c = false) s).
Proof.
  split; intros [Hne H]; (split; [exact Hne|]);
    eapply Forall_impl; try exact H; simpl; intros c;
    destruct (is_whitespace c); simpl; congruence.
Qed.

Lemma test_from_unfold r i s :
  test_from r i s =
  matcher r i s (fun _ _ => true)
  || match s with _ :: t => test_from r (S i) t | [] => false end.
Proof. destruct s; reflexivity. Qed.

(** The anchor [^] rules out every start index but the first. *)
Lemma email_re_later_start s i : test_from email_re (S i) s = false.
Proof. revert i. induction s as [|c r IH]; intros i; simpl; [reflexivity | apply IH]. Qed.

(** The matcher decides the shape "non-space run, @, non-space run, dot,
    non-space run" on the whole string. *)
Lemma email_re_spec s :
  test email_re s = true <->
  exists a b c, s = a ++ [64%N] ++ b ++ [46%N] ++ c
    /\ (a <> [] /\ Forall (fun x => is_whitespace x = false) a)
    /\ (b <> [] /\ Forall (fun x => is_whitespace x = false) b)
    /\ (c <> [] /\ Forall (fun x => is_whitespace x = false) c).
Proof.
  unfold test.
  assert (E : test_from email_re 0 s = matcher email_re 0 s (fun _ _ => true)).
  { rewrite test_from_unfold. destruct s as [|x r].
    - apply orb_false_r.
    - rewrite email_re_later_start. apply orb_false_r. }
  rewrite E. cbn [email_re matcher]. rewrite plus_m_spec. split.
  - intros (a & s1 & -> & Ha1 & Ha2 & Hk).
    destruct s1 as [|x s1]; [discriminate|].
    apply andb_true_iff in Hk as [Hx Hk]. cbn [atom_ok] in Hx.
    apply N.eqb_eq in Hx. subst x.
    apply plus_m_spec in Hk as (b & s2 & -> & Hb1 & Hb2 & Hk).
    destruct s2 as [|x s2]; [discriminate|].
    apply andb_true_iff in Hk as [Hx Hk]. cbn [atom_ok] in Hx.
    apply N.eqb_eq in Hx. subst x.
    apply plus_m_spec in Hk as (c & s3 & -> & Hc1 & Hc2 & Hk).
    destruct s3; [|discriminate]. rewrite app_nil_r.
    exists a, b, c. split; [reflexivity|].
    repeat split; try assumption; apply notspace_run; split; assumption.
  - intros (a & b & c & -> & Ha & Hb & Hc).
    apply notspace_run in Ha as [Ha1 Ha2], Hb as [Hb1 Hb2], Hc as [Hc1 Hc2].
    exists a, ([64%N] ++ b ++ [46%N] ++ c).
    split; [reflexivity|]. split; [exact Ha1|]. split; [exact Ha2|].
    cbn [app atom_ok]. rewrite N.eqb_refl. cbn [andb].
    apply plus_m_spec. exists b, (46%N :: c).
    split; [reflexivity|]. split; [exact Hb1|]. split; [exact Hb2|].
    cbn [atom_ok]. rewrite N.eqb_refl. cbn [andb].
    apply plus_m_spec. exists c, [].
    split; [by rewrite app_nil_r|]. split; [exact Hc1|]. split; [exact Hc2|].
    reflexivity.
Qed.

(** A string without a digit after the optional sign is not a number. *)
Lemma parseInt_no_digit s : not_numeric s -> parseInt (Some s) = None.
Proof.
  unfold not_numeric, parseInt. cbn [ToString]. destruct (trimStart s) as [|c r]; [reflexivity|].
  intros H.
  assert (Hd : forall t, match t with x :: _ => digit x = None | [] => True end ->
                         digits t None = None).
  { intros [|x t] Hx; simpl; [reflexivity | by rewrite Hx]. }
  destruct (N.eq_dec c 45%N) as [->|N45]; [by rewrite (Hd r H)|].
  destruct (N.eq_dec c 43%N) as [->|N43]; [by rewrite (Hd r H)|].
  assert (Hc : digit c = None).
  { destruct c as [|q]; [exact H|].
    repeat (destruct q as [q|q|]; try exact H; try congruence). }
  assert (E : (let '(sign, s0) :=
                 match c with
                 | 45%N => (-1, r) | 43%N => (1, r) | _ => (1, c :: r)
                 end in
               match digits s0 None with Some n => Some (sign * n) | None => None end)
              = match digits (c :: r) None with Some n => Some (1 * n) | None => None end).
  { destruct c as [|q]; [reflexivity|].
    repeat (destruct q as [q|q|]; try reflexivity; try congruence). }
  rewrite E. simpl. rewrite Hc. reflexivity.
Qed.

End JSFacts.

(** ** Form validation and the submit handler *)

Module FormFacts.
Import JS CTA JSFacts.

Lemma messages_distinct :
  name_error <> age_error /\ name_error <> email_error /\ age_error <> email_error.
Proof. repeat split; intros H; vm_compute in H; discriminate. Qed.

(** The error list holds the messages of the failing rules, in rule order. *)
Lemma validateForm_failing data :
  validateForm data =
  (if name_fails data then [name_error] else [])
  ++ (if age_fails data then [age_error] else [])
  ++ (if email_fails data then [email_error] else []).
Proof.
  unfold validateForm.
  destruct (name_fails data), (age_fails data), (email_fails data); reflexivity.
Qed.

Lemma In_validateForm m data :
  In m (validateForm data) <->
  (m = name_error /\ name_fails data = true)
  \/ (m = age_error /\ age_fails data = true)
  \/ (m = email_error /\ email_fails data = true).
Proof.
  rewrite validateForm_failing.
  destruct (name_fails data), (age_fails data), (email_fails data); simpl;
    intuition congruence.
Qed.

Lemma name_error_iff data :
  In name_error (validateForm data) <-> name_fails data = true.
Proof.
  destruct messages_distinct as (H1 & H2 & H3).
  rewrite In_validateForm. intuition congruence.
Qed.

Lemma age_error_iff data :
  In age_error (validateForm data) <-> age_fails data = true.
Proof.
  destruct messages_distinct as (H1 & H2 & H3).
  rewrite In_validateForm. intuition congruence.
Qed.

Lemma email_error_iff data :
  In email_error (validateForm data) <-> email_fails data = true.
Proof.
  destruct messages_distinct as (H1 & H2 & H3).
  rewrite In_validateForm. intuition congruence.
Qed.

Lemma name_fails_iff data :
  name_fails data = true <->
  name data = None \/ exists n, name data = Some n /\ (length (trim n) < 2)%nat.
Proof.
  unfold name_fails. destruct (name data) as [n|].
  - rewrite orb_true_iff, Nat.ltb_lt. split.
    + intros [H|H]; right; exists n; split; try reflexivity; try exact H.
      destruct n; [simpl; lia | discriminate].
    + intros [H|(n' & [= <-] & H)]; [discriminate | by right].
  - split; [by left | reflexivity].
Qed.

Lemma age_fails_iff data :
  age_fails data = true <->
  ~ exists n, parseInt (age data) = Some n /\ 13 <= n <= 19.
Proof.
  unfold age_fails. destruct (parseInt (age data)) as [n|]; simpl.
  - rewrite !orb_true_iff, negb_true_iff, negb_false_iff, Z.eqb_eq, !Z.ltb_lt. split.
    + intros H (n' & [= <-] & Hn). lia.
    + intros H. destruct (Z_lt_dec n 13); [tauto|].
      destruct (Z_lt_dec 19 n); [tauto|]. exfalso. apply H. exists n. split; [reflexivity | lia].
  - split; [|reflexivity]. intros _ (n & [=] & _).
Qed.

Lemma email_fails_iff data :
  email_fails data = true <->
  exists e, email data = Some e /\ e <> [] /\ ~ email_shape e.
Proof.
  unfold email_fails, email_shape, nonspace. destruct (email data) as [e|].
  - rewrite andb_true_iff, negb_true_iff. split.
    + intros [H1 H2]. exists e. split; [reflexivity|]. split.
      * destruct e; [discriminate | congruence].
      * rewrite <- email_re_spec. congruence.
    + intros (e' & [= <-] & H1 & H2). split.
      * destruct e; [congruence | reflexivity].
      * rewrite <- email_re_spec in H2. by destruct (test email_re e).
  - split; [discriminate|]. intros (e & [=] & _).
Qed.

(** A non-empty error list makes the handler return after it has shown the
    joined messages. *)
Lemma submit_rejects key fd p :
  wired p = true -> validateForm (payload_of fd) <> [] ->
  rejected fd p (step key (Submit fd) p).
Proof.
  intros Hw Hne. cbn [step]. rewrite Hw. unfold on_submit.
  destruct (validateForm (payload_of fd)) as [|m l] eqn:E; [congruence|].
  cbn [length Nat.ltb Nat.leb]. unfold rejected. rewrite E. repeat split.
Qed.

Lemma In_nonempty {A} (x : A) l : In x l -> l <> [].
Proof. destruct l; [intros [] | discriminate]. Qed.

(** A page on which the modal has been constructed, for the examples. *)
Definition constructed : Page :=
  setupCTAModal default_key (page_load ∅ 1000 0%float 800%float plain).

Definition entries (n a e : string) : FormData :=
  {| fd_name := Some (js n); fd_age := Some (js a); fd_email := Some (js e) |}.

(** C2: an age that does not parse to an integer of [13, 19] is rejected
    with the age message and nothing is stored; an age that does produces
    no age message; a missing age, or a text without a leading number, is
    among the rejected ones. *)
Theorem age_rule key fd p :
  wired p = true ->
  (forall data, In age_error (validateForm data) <->
                ~ exists n, parseInt (age data) = Some n /\ 13 <= n <= 19)
  /\ ((~ exists n, parseInt (fd_age fd) = Some n /\ 13 <= n <= 19) ->
      In age_error (validateForm (payload_of fd))
      /\ rejected fd p (step key (Submit fd) p)
      /\ localStorage (step key (Submit fd) p) = localStorage p)
  /\ (forall n, parseInt (fd_age fd) = Some n -> 13 <= n <= 19 ->
      ~ In age_error (validateForm (payload_of fd)))
  /\ (fd_age fd = None \/ (exists s, fd_age fd = Some s /\ not_numeric s) ->
      In age_error (validateForm (payload_of fd))).
Proof.
  intros Hw. split; [|split; [|split]]; cycle 3.
  - intros H. apply age_error_iff, age_fails_iff. cbn [payload_of age].
    intros (n & Hn & _). destruct H as [H | (s & H & Hs)]; rewrite H in Hn.
    + vm_compute in Hn. discriminate.
    + rewrite (parseInt_no_digit s Hs) in Hn. discriminate.
  - intros data. rewrite age_error_iff. apply age_fails_iff.
  - intros H.
    assert (Hin : In age_error (validateForm (payload_of fd)))
      by (apply age_error_iff, age_fails_iff; exact H).
    split; [exact Hin|].
    pose proof (submit_rejects key fd p Hw (In_nonempty _ _ Hin)) as R.
    split; [exact R | apply R].
  - intros n Hn Hr Hin. apply age_error_iff, age_fails_iff in Hin.
    apply Hin. exists n. split; [exact Hn | exact Hr].
Qed.

Lemma age_rule_witness :
  wired constructed = true
  /\ In age_error (validateForm (payload_of (entries "Asha" "12" "")))
  /\ ~ In age_error (validateForm (payload_of (entries "Asha" "13" "")))
  /\ In age_error (validateForm (payload_of (entries "Asha" " -teen" ""))).
Proof.
  split; [reflexivity|].
  destruct (age_rule default_key (entries "Asha" "12" "") constructed eq_refl)
    as (_ & Hbad & _).
  destruct (age_rule default_key (entries "Asha" "13" "") constructed eq_refl)
    as (_ & _ & Hgood & _).
  destruct (age_rule default_key (entries "Asha" " -teen" "") constructed eq_refl)
    as (_ & _ & _ & Hnan).
  split; [|split].
  - apply Hbad. intros (n & Hn & Hr). vm_compute in Hn.
    injection Hn as <-. lia.
  - apply (Hgood 13); [reflexivity | lia].
  - apply Hnan. right. exists (js " -teen"). split; reflexivity.
Defined.

(** C4: a missing name, or a name shorter than two characters once trimmed,
    is rejected with the name message; a name of trimmed length two or more
    produces no name message. *)
Theorem name_rule key fd p :
  wired p = true ->
  (forall data, In name_error (validateForm data) <->
                name data = None
                \/ exists n, name data = Some n /\ (length (trim n) < 2)%nat)
  /\ (fd_name fd = None
      \/ (exists n, fd_name fd = Some n /\ (length (trim n) < 2)%nat) ->
      In name_error (validateForm (payload_of fd))
      /\ rejected fd p (step key (Submit fd) p))
  /\ (forall n, fd_name fd = Some n -> (2 <= length (trim n))%nat ->
      ~ In name_error (validateForm (payload_of fd))).
Proof.
  intros Hw. split; [|split].
  - intros data. rewrite name_error_iff. apply name_fails_iff.
  - intros H.
    assert (Hin : In name_error (validateForm (payload_of fd))).
    { apply name_error_iff, name_fails_iff. cbn [payload_of name].
      destruct H as [-> | (n & -> & Hn)]; [by left | right].
      exists (trim n). split; [reflexivity|]. by rewrite trim_idempotent. }
    split; [exact Hin|]. exact (submit_rejects key fd p Hw (In_nonempty _ _ Hin)).
  - intros n Hn Hlen Hin. apply name_error_iff, name_fails_iff in Hin.
    cbn [payload_of name] in Hin. rewrite Hn in Hin. cbn [opt_trim] in Hin.
    destruct Hin as [[=] | (m & [= <-] & Hm)].
    rewrite trim_idempotent in Hm. lia.
Qed.

Lemma name_rule_witness :
  wired constructed = true
  /\ In name_error (validateForm (payload_of (entries " A " "15" "")))
  /\ ~ In name_error (validateForm (payload_of (entries " Al " "15" ""))).
Proof.
  split; [reflexivity|].
  destruct (name_rule default_key (entries " A " "15" "") constructed eq_refl)
    as (_ & Hbad & _).
  destruct (name_rule default_key (entries " Al " "15" "") constructed eq_refl)
    as (_ & _ & Hgood).
  split.
  - apply Hbad. right. exists (js " A "). split; [reflexivity | vm_compute; lia].
  - apply (Hgood (js " Al ")); [reflexivity | vm_compute; lia].
Defined.

(** C5: an absent or empty email produces no email message; a non-empty
    email that is not of the shape nonspace "@" nonspace "." nonspace is
    rejected with the email message.  The email is the one of the object
    handed to [validateForm], that is the trimmed field. *)
Theorem email_rule key fd p :
  wired p = true ->
  (forall data, email data = None \/ email data = Some [] ->
                ~ In email_error (validateForm data))
  /\ (forall data e, email data = Some e -> e <> [] -> ~ email_shape e ->
                     In email_error (validateForm data))
  /\ (forall data e, email data = Some e -> email_shape e ->
                     ~ In email_error (validateForm data))
  /\ (forall e, email (payload_of fd) = Some e -> e <> [] -> ~ email_shape e ->
                rejected fd p (step key (Submit fd) p)).
Proof.
  intros Hw. split; [|split; [|split]].
  - intros data H Hin. apply email_error_iff, email_fails_iff in Hin.
    destruct Hin as (e & He & Hne & _). destruct H as [H|H]; congruence.
  - intros data e He Hne Hsh. apply email_error_iff, email_fails_iff. by exists e.
  - intros data e He Hsh Hin. apply email_error_iff, email_fails_iff in Hin.
    destruct Hin as (e' & He' & _ & Hn). apply Hn. congruence.
  - intros e He Hne Hsh.
    assert (Hin : In email_error (validateForm (payload_of fd)))
      by (apply email_error_iff, email_fails_iff; by exists e).
    apply (submit_rejects key fd p Hw (In_nonempty _ _ Hin)).
Qed.

Lemma email_rule_witness :
  wired constructed = true
  /\ ~ In email_error (validateForm (payload_of (entries "Asha" "15" "")))
  /\ In email_error (validateForm (payload_of (entries "Asha" "15" "asha@mail")))
  /\ ~ In email_error (validateForm (payload_of (entries "Asha" "15" "asha@mail.in"))).
Proof.
  split; [reflexivity|].
  destruct (email_rule default_key (entries "Asha" "15" "") constructed eq_refl)
    as (Hempty & Hbad & Hgood & _).
  split; [|split].
  - apply Hempty. right. reflexivity.
  - apply (Hbad _ (js "asha@mail")); [reflexivity | discriminate |].
    unfold email_shape, nonspace. rewrite <- email_re_spec. vm_compute. discriminate.
  - apply (Hgood _ (js "asha@mail.in")); [reflexivity|].
    unfold email_shape, nonspace. rewrite <- email_re_spec. reflexivity.
Defined.


(** C6: when a rule fails, the feedback element shows the messages of all
    failing rules joined by one space, with the error class; the handler
    returns there: the modal stays as it was (open when it was open), the
    storage is untouched and no callback is scheduled. *)
Theorem failed_submission key fd p :
  wired p = true ->
  name_fails (payload_of fd) = true \/ age_fails (payload_of fd) = true
    \/ email_fails (payload_of fd) = true ->
  let data := payload_of fd in
  let after := step key (Submit fd) p in
  feedback_text after =
    join (js " ")
      ((if name_fails data then [name_error] else [])
       ++ (if age_fails data then [age_error] else [])
       ++ (if email_fails data then [email_error] else []))
  /\ feedback_error after = true
  /\ modal_open after = modal_open p
  /\ localStorage after = localStorage p
  /\ timeouts after = timeouts p
  /\ rejected fd p after.
Proof.
  intros Hw Hfail data after.
  assert (Hne : validateForm data <> []).
  { rewrite validateForm_failing.
    destruct Hfail as [H|[H|H]]; fold data in H; rewrite H;
      destruct (name_fails data), (age_fails data); discriminate. }
  pose proof (submit_rejects key fd p Hw Hne) as R. fold after in R.
  destruct R as (E & R1 & R2 & R3 & R4).
  split; [|repeat split; assumption].
  rewrite E. cbn [set_feedback feedback_text]. fold data.
  by rewrite validateForm_failing.
Qed.

Lemma failed_submission_witness :
  wired constructed = true
  /\ feedback_text (step default_key (Submit (entries "A" "12" "a@b")) constructed)
     = js "Please enter a valid name. Age must be between 13 and 19. If provided, email must be valid."
  /\ localStorage (step default_key (Submit (entries "A" "12" "a@b")) constructed)
     = localStorage constructed.
Proof.
  split; [reflexivity|].
  destruct (failed_submission default_key (entries "A" "12" "a@b") constructed eq_refl)
    as (Htxt & _ & _ & Hst & _).
  - left. reflexivity.
  - split; [|exact Hst]. rewrite Htxt. reflexivity.
Defined.

End FormFacts.

(** ** When the modal opens *)

Module ModalFacts.
Import JS CTA FormFacts.

Ltac modal_simpl :=
  cbn [localStorage clock scrollY innerHeight has_modal wired modal_open
       body_overflow shown timed scroll_throttle feedback_text feedback_error
       timeouts opens set_storage set_window set_modal set_shown set_timed
       set_throttle set_feedback set_timeouts setTimeout step
       run_action openModal closeModal] in *.

(** What one step can do to a page without listeners: nothing but the
    window and the storage change. *)
Lemma step_unwired key e p :
  wired p = false ->
  let r := step key e p in
  wired r = false /\ opens r = opens p /\ modal_open r = modal_open p
  /\ has_modal r = has_modal p /\ timed r = timed p /\ shown r = shown p
  /\ timeouts r = timeouts p.
Proof.
  intros Hw. destruct e; cbn [step]; modal_simpl; rewrite ?Hw;
    cbn [andb]; repeat split; assumption.
Qed.

Lemma showAfter_joined key p : joined key p = true -> showAfter key p = p.
Proof. intros H. unfold showAfter. by rewrite H, orb_true_r. Qed.

Lemma showAfter_shown key p : shown p = true -> showAfter key p = p.
Proof. intros H. unfold showAfter. by rewrite H. Qed.

Lemma showAfter_opens key p :
  shown p = false -> joined key p = false ->
  showAfter key p = openModal (set_shown true p).
Proof. intros H1 H2. unfold showAfter. by rewrite H1, H2. Qed.

(** The effect of a step on [shown], [opens] and the open flag: either no
    opening at all, or the single opening by [showAfter], which needs
    [shown] false and no stored record. *)
Definition quiet (p r : Page) : Prop :=
  shown r = shown p /\ opens r = opens p
  /\ (modal_open r = true -> modal_open p = true).

Definition opening (key : jsstring) (p r : Page) : Prop :=
  shown p = false /\ joined key p = false
  /\ shown r = true /\ opens r = S (opens p) /\ modal_open r = true.

Lemma showAfter_effect key p q :
  shown q = shown p -> opens q = opens p -> modal_open q = modal_open p ->
  joined key q = joined key p -> wired q = wired p ->
  wired (showAfter key q) = wired p
  /\ (quiet p (showAfter key q) \/ opening key p (showAfter key q)).
Proof.
  intros H1 H2 H3 H4 H5. unfold showAfter.
  destruct (shown q) eqn:Es; cbn [orb].
  - split; [exact H5|]. left. unfold quiet. rewrite <- H1, Es, H2, H3. tauto.
  - destruct (joined key q) eqn:Ej.
    + split; [exact H5|]. left. unfold quiet. rewrite <- H1, Es, H2, H3. tauto.
    + split; [exact H5|]. right. unfold opening. modal_simpl.
      rewrite <- H1, <- H4, H2. tauto.
Qed.

Lemma scrollHandler_effect key p q :
  shown q = shown p -> opens q = opens p -> modal_open q = modal_open p ->
  joined key q = joined key p -> wired q = wired p ->
  wired (scrollHandler key q) = wired p
  /\ (quiet p (scrollHandler key q) \/ opening key p (scrollHandler key q)).
Proof.
  intros H1 H2 H3 H4 H5. unfold scrollHandler. destruct (past_threshold q).
  - by apply showAfter_effect.
  - split; [exact H5|]. left. unfold quiet. rewrite H1, H2, H3. tauto.
Qed.

Lemma quiet_refl_modal p q :
  shown q = shown p -> opens q = opens p ->
  (modal_open q = true -> modal_open p = true) -> quiet p q.
Proof. unfold quiet. tauto. Qed.

Lemma step_effect key e p :
  wired p = true ->
  wired (step key e p) = true
  /\ (quiet p (step key e p) \/ opening key p (step key e p)).
Proof.
  intros Hw. destruct e; cbn [step]; modal_simpl; rewrite ?Hw; cbn [andb].
  - split; [first [exact Hw | reflexivity]|]. left. by apply quiet_refl_modal.
  - unfold on_scroll. modal_simpl.
    destruct (Throttle.call 250 (clock p) () (scroll_throttle p)) as [th [u|]].
    + rewrite <- Hw at 1. by apply scrollHandler_effect.
    + split; [first [exact Hw | reflexivity]|]. left. by apply quiet_refl_modal.
  - unfold on_scroll.
    destruct (Throttle.call 250 (clock p) () (scroll_throttle p)) as [th [u|]].
    + rewrite <- Hw at 1. by apply scrollHandler_effect.
    + split; [first [exact Hw | reflexivity]|]. left. by apply quiet_refl_modal.
  - split; [first [exact Hw | reflexivity]|]. left. by apply quiet_refl_modal.
  - unfold on_show_timer. destruct (timed p) as [d|].
    + destruct (d <=? clock p).
      * rewrite <- Hw at 1. by apply showAfter_effect.
      * split; [first [exact Hw | reflexivity]|]. left. by apply quiet_refl_modal.
    + split; [first [exact Hw | reflexivity]|]. left. by apply quiet_refl_modal.
  - unfold on_throttle_timer.
    destruct (Throttle.fire (clock p) (scroll_throttle p)) as [th [u|]].
    + rewrite <- Hw at 1. by apply scrollHandler_effect.
    + split; [first [exact Hw | reflexivity]|]. left. by apply quiet_refl_modal.
  - unfold on_timeout. destruct (timeouts p !! i) as [[d a]|].
    + destruct (d <=? clock p).
      * destruct a; modal_simpl; (split; [first [exact Hw | reflexivity]|]); left;
          apply quiet_refl_modal; modal_simpl; try reflexivity; try discriminate; tauto.
      * split; [first [exact Hw | reflexivity]|]. left. by apply quiet_refl_modal.
    + split; [first [exact Hw | reflexivity]|]. left. by apply quiet_refl_modal.
  - unfold on_submit. destruct (0 <? length (validateForm (payload_of fd)))%nat;
      modal_simpl; (split; [first [exact Hw | reflexivity]|]); left; by apply quiet_refl_modal.
  - split; [first [exact Hw | reflexivity]|]. left. apply quiet_refl_modal; modal_simpl; try reflexivity; discriminate.
  - split; [first [exact Hw | reflexivity]|]. left. apply quiet_refl_modal; modal_simpl; try reflexivity; discriminate.
  - split; [first [exact Hw | reflexivity]|]. left. apply quiet_refl_modal; modal_simpl; try reflexivity; discriminate.
  - destruct (modal_open p) eqn:Em; (split; [first [exact Hw | reflexivity]|]); left;
      apply quiet_refl_modal; modal_simpl; try reflexivity; try discriminate; tauto.
  - split; [first [exact Hw | reflexivity]|]. left. by apply quiet_refl_modal.
  - split; [first [exact Hw | reflexivity]|]. left. by apply quiet_refl_modal.
Qed.


Lemma run_cons key e evs p : run key (e :: evs) p = run key evs (step key e p).
Proof. reflexivity. Qed.

Lemma run_app key evs1 evs2 p :
  run key (evs1 ++ evs2) p = run key evs2 (run key evs1 p).
Proof. unfold run. apply foldl_app. Qed.

Lemma run_unwired key evs : forall p,
  wired p = false ->
  let r := run key evs p in
  wired r = false /\ opens r = opens p /\ modal_open r = modal_open p
  /\ has_modal r = has_modal p /\ timed r = timed p /\ shown r = shown p.
Proof.
  induction evs as [|e evs IH]; intros p Hw; [by repeat split|].
  rewrite run_cons.
  destruct (step_unwired key e p Hw) as (H1 & H2 & H3 & H4 & H5 & H6 & _).
  destruct (IH _ H1) as (K1 & K2 & K3 & K4 & K5 & K6).
  cbv zeta. rewrite K2, K3, K4, K5, K6. by repeat split.
Qed.

(** The invariant of a constructed modal: [openModal] has been called once
    if [shown] is set and never otherwise. *)
Definition once (p : Page) : Prop :=
  wired p = true /\ opens p = (if shown p then 1 else 0)%nat.

Lemma once_step key e p : once p -> once (step key e p).
Proof.
  intros [Hw Ho]. destruct (step_effect key e p Hw) as [Hw' [Q|O]].
  - destruct Q as (Q1 & Q2 & _). split; [exact Hw'|]. by rewrite Q1, Q2.
  - destruct O as (O1 & _ & O3 & O4 & _). split; [exact Hw'|].
    rewrite O3, O4, Ho, O1. reflexivity.
Qed.

Lemma once_run key evs : forall p, once p -> once (run key evs p).
Proof.
  induction evs as [|e evs IH]; intros p H; [exact H|].
  rewrite run_cons. apply IH, once_step, H.
Qed.

Lemma shown_step key e p : wired p = true -> shown p = true -> shown (step key e p) = true.
Proof.
  intros Hw Hs. destruct (step_effect key e p Hw) as [_ [Q|O]].
  - destruct Q as (Q1 & _). by rewrite Q1.
  - apply O.
Qed.

Lemma shown_run key evs : forall p,
  once p -> shown p = true -> shown (run key evs p) = true.
Proof.
  induction evs as [|e evs IH]; intros p H Hs; [exact Hs|].
  rewrite run_cons. apply IH; [by apply once_step|].
  apply shown_step; [apply H | exact Hs].
Qed.

(** Storage is only written by the write callback and by foreign events. *)
Lemma joined_step key e p :
  ~ touches key e -> joined key p = true -> joined key (step key e p) = true.
Proof.
  intros Ht Hj.
  assert (Hsa : forall q, joined key q = true -> joined key (showAfter key q) = true).
  { intros q Hq. by rewrite showAfter_joined. }
  assert (Hsh : forall q, joined key q = true -> joined key (scrollHandler key q) = true).
  { intros q Hq. unfold scrollHandler. destruct (past_threshold q); [|exact Hq].
    apply Hsa. exact Hq. }
  destruct e; cbn [step touches] in *; modal_simpl;
    try (destruct (wired p); cbn [andb]); try exact Hj.
  - unfold on_scroll. modal_simpl.
    destruct (Throttle.call 250 (clock p) () (scroll_throttle p)) as [th [u|]];
      [apply Hsh|]; exact Hj.
  - unfold on_scroll.
    destruct (Throttle.call 250 (clock p) () (scroll_throttle p)) as [th [u|]];
      [apply Hsh|]; exact Hj.
  - unfold on_show_timer. destruct (timed p) as [d|]; [|exact Hj].
    destruct (d <=? clock p); [apply Hsa|]; exact Hj.
  - unfold on_throttle_timer.
    destruct (Throttle.fire (clock p) (scroll_throttle p)) as [th [u|]];
      [apply Hsh|]; exact Hj.
  - unfold on_timeout. destruct (timeouts p !! i) as [[d a]|]; [|exact Hj].
    destruct (d <=? clock p); [|exact Hj].
    destruct a; modal_simpl; [|exact Hj].
    unfold joined. modal_simpl. by rewrite lookup_insert_eq.
  - unfold on_submit. destruct (0 <? length (validateForm (payload_of fd)))%nat; exact Hj.
  - destruct (modal_open p); exact Hj.
  - unfold joined in *. modal_simpl. rewrite lookup_insert_ne by exact Ht. exact Hj.
  - unfold joined in *. modal_simpl. rewrite lookup_insert_ne by exact Ht. exact Hj.
  - unfold joined in *. modal_simpl. rewrite lookup_delete_ne by exact Ht. exact Hj.
  - unfold joined in *. modal_simpl. rewrite lookup_delete_ne by exact Ht. exact Hj.
Qed.

(** C10: [showAfter] re-reads the storage.  With a record present it does
    nothing, so no event opens the modal while a record is stored, whether
    or not the modal was constructed; and as long as no other context
    touches the entry, the page keeps the record and never opens the modal. *)
Theorem no_open_while_joined key p :
  joined key p = true ->
  showAfter key p = p
  /\ (forall e, opens (step key e p) = opens p
                /\ shown (step key e p) = shown p
                /\ (modal_open (step key e p) = true -> modal_open p = true))
  /\ (forall evs, Forall (fun e => ~ touches key e) evs ->
                  joined key (run key evs p) = true
                  /\ opens (run key evs p) = opens p).
Proof.
  intros Hj.
  assert (Hstep : forall q e, joined key q = true ->
            opens (step key e q) = opens q /\ shown (step key e q) = shown q
            /\ (modal_open (step key e q) = true -> modal_open q = true)).
  { intros q e Hq. destruct (wired q) eqn:Hw.
    - destruct (step_effect key e q Hw) as [_ [Q|O]].
      + destruct Q as (Q1 & Q2 & Q3). by repeat split.
      + destruct O as (_ & O2 & _). congruence.
    - destruct (step_unwired key e q Hw) as (_ & H2 & H3 & _ & _ & H6 & _).
      repeat split; try assumption. by rewrite H3. }
  split; [by apply showAfter_joined|]. split; [intros e; by apply Hstep|].
  intros evs. revert p Hj. induction evs as [|e evs IH]; intros p Hj Hall.
  - by split.
  - inversion Hall as [|? ? He Hall']; subst. rewrite run_cons.
    destruct (IH (step key e p) (joined_step key e p He Hj) Hall') as [K1 K2].
    split; [exact K1|]. rewrite K2. by apply Hstep.
Qed.

(** A record written by another tab after the modal was constructed: the
    timer and a scroll past the threshold both leave the modal closed. *)
Lemma no_open_while_joined_witness :
  let p := step default_key (StorageSet default_key (js "{}")) constructed in
  joined default_key p = true
  /\ wired p = true
  /\ opens (run default_key
              [Elapse 8000; ShowTimer; ScrollTo 700%float] p) = 0%nat.
Proof.
  intros p. split; [reflexivity|]. split; [reflexivity|].
  destruct (no_open_while_joined default_key p eq_refl) as (_ & _ & Hrun).
  destruct (Hrun [Elapse 8000; ShowTimer; ScrollTo 700%float]) as [_ Ho].
  - repeat constructor; intros [].
  - rewrite Ho. reflexivity.
Defined.


Lemma once_opened key r :
  once r -> shown r = false -> joined key r = false ->
  forall q, shown q = shown r -> opens q = opens r -> joined key q = joined key r ->
  opened (showAfter key q).
Proof.
  intros [_ Ho] Hs Hj q Q1 Q2 Q3.
  rewrite showAfter_opens by congruence.
  unfold opened. modal_simpl. rewrite Q2, Ho, Hs. by repeat split.
Qed.

(** C1, as the code has it.  With a record stored at startup
    [setupCTAModal] changes nothing and no event ever opens a modal (the
    class list of an element that the markup brought is left as it is).
    Without a record and without an element [#cta-modal] in the page, the
    modal is built closed with the timer armed for 6000 ms; it is opened at
    most once; while it has not been shown and no record is stored, the due
    timer opens it, and so does a run of the throttled scroll handler for
    which the test [scrollY > innerHeight * 0.45] of the code, on doubles,
    is true, which also cancels the timer; once it has been shown no event
    opens it again. *)
Theorem modal_visibility key storage t y h (markup : Markup) :
  let p := page_load storage t y h markup in
  let q := setupCTAModal key p in
  (joined key p = true ->
     q = p
     /\ forall evs, let r := run key evs q in
          wired r = false /\ has_modal r = with_modal markup /\ timed r = None
          /\ shown r = false /\ modal_open r = modal_open p /\ opens r = 0%nat)
  /\ (joined key p = false -> with_modal markup = false ->
      (wired q = true /\ has_modal q = true /\ modal_open q = false
       /\ timed q = Some (t + 6000))
      /\ (forall t', t + 6000 <= t' -> opened (run key [Elapse t'; ShowTimer] q))
      /\ forall evs, let r := run key evs q in
          (opens r <= 1)%nat
          /\ (shown r = false -> joined key r = false ->
              (forall d, timed r = Some d -> d <= clock r ->
                 opened (step key ShowTimer r))
              /\ (forall y', 250 <= clock r - Throttle.last (scroll_throttle r) ->
                    past_threshold (set_window (clock r) y' (innerHeight r) r) = true ->
                    opened (step key (ScrollTo y') r)
                    /\ timed (step key (ScrollTo y') r) = None)
              /\ (forall d u, Throttle.timer (scroll_throttle r) = Some (d, u) ->
                    d <= clock r -> past_threshold r = true ->
                    opened (step key ThrottleTimer r)
                    /\ timed (step key ThrottleTimer r) = None))
          /\ (shown r = true -> forall evs', let r' := run key evs' r in
                opens r' = 1%nat
                /\ forall e, modal_open (step key e r') = true -> modal_open r' = true)).
Proof.
  intros p q. split.
  - intros Hj.
    assert (E : q = p) by (unfold q, setupCTAModal; by rewrite Hj).
    split; [exact E|]. intros evs r. unfold r. rewrite E.
    destruct (run_unwired key evs p eq_refl) as (H1 & H2 & H3 & H4 & H5 & H6).
    rewrite H1, H2, H3, H4, H5, H6. by repeat split.
  - intros Hj Hm.
    assert (E : q = set_timed (Some (t + 6000))
                      {| localStorage := storage; clock := t; scrollY := y;
                         innerHeight := h; has_modal := true; wired := true;
                         modal_open := false; body_overflow := overflow markup;
                         shown := false;
                         timed := None; scroll_throttle := Throttle.init;
                         feedback_text := []; feedback_error := false;
                         timeouts := []; opens := 0 |}).
    { unfold q, setupCTAModal. rewrite Hj. unfold p. cbn [has_modal page_load].
      rewrite Hm. reflexivity. }
    assert (Hq : once q) by (rewrite E; by split).
    assert (Trig : forall r, once r -> shown r = false -> joined key r = false ->
              (forall d, timed r = Some d -> d <= clock r ->
                 opened (step key ShowTimer r))
              /\ (forall y', 250 <= clock r - Throttle.last (scroll_throttle r) ->
                    past_threshold (set_window (clock r) y' (innerHeight r) r) = true ->
                    opened (step key (ScrollTo y') r)
                    /\ timed (step key (ScrollTo y') r) = None)
              /\ (forall d u, Throttle.timer (scroll_throttle r) = Some (d, u) ->
                    d <= clock r -> past_threshold r = true ->
                    opened (step key ThrottleTimer r)
                    /\ timed (step key ThrottleTimer r) = None)).
    { intros r Hr Hs Hjr. pose proof Hr as [Hw Ho]. split; [|split].
      - intros d Hd Hle. cbn [step]. rewrite Hw. unfold on_show_timer. rewrite Hd.
        destruct (Z.leb_spec d (clock r)); [|lia].
        by apply (once_opened key r).
      - intros y' Hthr Hpast. cbn [step]. modal_simpl. rewrite Hw.
        unfold on_scroll, Throttle.call. modal_simpl.
        destruct (Z.leb_spec (250 - (clock r - Throttle.last (scroll_throttle r))) 0);
          [|lia].
        unfold scrollHandler.
        change (past_threshold (set_throttle _ (set_window (clock r) y' (innerHeight r) r)))
          with (past_threshold (set_window (clock r) y' (innerHeight r) r)).
        rewrite Hpast. split; [by apply (once_opened key r)|].
        rewrite showAfter_opens; [reflexivity | exact Hs | exact Hjr].
      - intros d u Hd Hle Hpast. cbn [step]. rewrite Hw.
        unfold on_throttle_timer, Throttle.fire. rewrite Hd.
        destruct (Z.leb_spec d (clock r)); [|lia].
        unfold scrollHandler.
        change (past_threshold (set_throttle _ r)) with (past_threshold r).
        rewrite Hpast. split; [by apply (once_opened key r)|].
        rewrite showAfter_opens; [reflexivity | exact Hs | exact Hjr]. }
    split; [rewrite E; by repeat split|]. split.
    + intros t' Ht'. unfold run. cbn [foldl].
      assert (Hr : once (step key (Elapse t') q)) by (by apply once_step).
      destruct (Trig (step key (Elapse t') q) Hr) as (Ht & _).
      * rewrite E. reflexivity.
      * rewrite E. exact Hj.
      * apply (Ht (t + 6000)); rewrite E; [reflexivity|]. modal_simpl. lia.
    + intros evs r.
      assert (Hr : once r) by (by apply once_run).
      split; [|split].
      * destruct Hr as [_ ->]. destruct (shown r); lia.
      * by apply Trig.
      * intros Hs evs' r'.
        assert (Hr' : once r') by (by apply once_run).
        assert (Hs' : shown r' = true) by (by apply shown_run).
        split.
        -- destruct Hr' as [_ ->]. by rewrite Hs'.
        -- intros e He. destruct Hr' as [Hw' _].
           destruct (step_effect key e r' Hw') as [_ [Q|O]].
           ++ by apply Q.
           ++ destruct O as (O1 & _). congruence.
Qed.

Lemma modal_visibility_witness :
  joined default_key (page_load {[ default_key := js "{}" ]} 1000 0%float 800%float plain) = true
  /\ opens (run default_key [Elapse 8000; ShowTimer; ScrollTo 700%float]
             (setupCTAModal default_key
                (page_load {[ default_key := js "{}" ]} 1000 0%float 800%float plain))) = 0%nat
  /\ joined default_key (page_load ∅ 1000 0%float 800%float plain) = false
  /\ opened (run default_key [Elapse 7000; ShowTimer]
               (setupCTAModal default_key (page_load ∅ 1000 0%float 800%float plain))).
Proof.
  split; [reflexivity|]. split.
  - destruct (modal_visibility default_key {[ default_key := js "{}" ]} 1000
                0%float 800%float plain) as [H _].
    destruct (H eq_refl) as [_ Hrun].
    apply (Hrun [Elapse 8000; ShowTimer; ScrollTo 700%float]).
  - split; [reflexivity|].
    destruct (modal_visibility default_key ∅ 1000 0%float 800%float plain) as [_ H].
    destruct (H eq_refl eq_refl) as (_ & Htimer & _).
    apply (Htimer 7000). lia.
Defined.

(** The claim as first stated fails in two ways, both with no record stored
    at startup.  On a page that already has an element [#cta-modal] nothing
    is constructed, and neither the 6000 ms nor a scroll past the threshold
    shows a modal.  On a page where the modal was constructed, a record
    written by another tab before the first trigger keeps it closed. *)
Lemma modal_visibility_counterexample :
  let events :=
    [Elapse 7000; ShowTimer; ScrollTo 700%float; Elapse 8000;
     ThrottleTimer; ScrollEvent] in
  let p := page_load ∅ 1000 0%float 800%float present in
  let r := run default_key events (setupCTAModal default_key p) in
  let p' := page_load ∅ 1000 0%float 800%float plain in
  let r' := run default_key (StorageSet default_key (js "{}") :: events)
              (setupCTAModal default_key p') in
  (joined default_key p = false /\ past_threshold r = true
   /\ wired r = false /\ modal_open r = false /\ opens r = 0%nat)
  /\ (joined default_key p' = false /\ past_threshold r' = true
      /\ wired r' = true /\ modal_open r' = false /\ opens r' = 0%nat).
Proof. vm_compute. repeat split. Qed.

End ModalFacts.


(** ** The stored text can be read back *)

Module ReadingFacts.
Import JS CTA Reading.

Lemma unhex_hex_digit n : 0 <= n < 16 -> unhex (hex_digit n) = Some n.
Proof.
  intros H. unfold hex_digit, unhex.
  destruct (Z.ltb_spec n 10) as [Hlt | Hge].
  - destruct (N.leb_spec 48 (Z.to_N (48 + n))); [|lia].
    destruct (N.leb_spec (Z.to_N (48 + n)) 57); [|lia].
    cbn [andb]. f_equal. lia.
  - destruct (N.leb_spec (Z.to_N (87 + n)) 57); [lia|].
    rewrite andb_false_r.
    destruct (N.leb_spec 97 (Z.to_N (87 + n))); [|lia].
    destruct (N.leb_spec (Z.to_N (87 + n)) 102); [|lia].
    cbn [andb]. f_equal. lia.
Qed.

(** The four digits of [unicode_escape] give the code unit back. *)
Lemma unhex4_escape c :
  (c < 65536)%N ->
  exists h3 h2 h1 h0,
    unicode_escape c = [92%N; 117%N; h3; h2; h1; h0]
    /\ unhex4 h3 h2 h1 h0 = Some c.
Proof.
  intros Hc. unfold unicode_escape. do 4 eexists. split; [reflexivity|].
  unfold unhex4.
  assert (Hz : 0 <= Z.of_N c < 65536) by lia.
  rewrite !unhex_hex_digit by (apply Z.mod_pos_bound; lia).
  f_equal. apply N2Z.inj. rewrite Z2N.id.
  - Z.div_mod_to_equations. lia.
  - Z.div_mod_to_equations. lia.
Qed.

Lemma read_escape c rest t tail :
  (c < 65536)%N -> read_string rest = Some (t, tail) ->
  read_string (unicode_escape c ++ rest) = Some (c :: t, tail).
Proof.
  intros Hc Hr. destruct (unhex4_escape c Hc) as (h3 & h2 & h1 & h0 & -> & Hu).
  cbn [app read_string N.eqb Pos.eqb]. by rewrite Hu, Hr.
Qed.

Lemma read_plain c rest t tail :
  (c =? 34)%N = false -> (c =? 92)%N = false -> (32 <= c)%N ->
  read_string rest = Some (t, tail) ->
  read_string (c :: rest) = Some (c :: t, tail).
Proof.
  intros H1 H2 H3 Hr. cbn [read_string]. rewrite H1, H2, Hr.
  by destruct (N.ltb_spec c 32); [lia|].
Qed.

Lemma read_escape_unit c rest t tail :
  is_high_surrogate c = false -> is_low_surrogate c = false ->
  read_string rest = Some (t, tail) ->
  read_string (escape_unit c ++ rest) = Some (c :: t, tail).
Proof.
  intros _ _ Hr. unfold escape_unit.
  destruct (N.eqb_spec c 0x08) as [->|N1]; [cbn; by rewrite Hr|].
  destruct (N.eqb_spec c 0x09) as [->|N2]; [cbn; by rewrite Hr|].
  destruct (N.eqb_spec c 0x0A) as [->|N3]; [cbn; by rewrite Hr|].
  destruct (N.eqb_spec c 0x0C) as [->|N4]; [cbn; by rewrite Hr|].
  destruct (N.eqb_spec c 0x0D) as [->|N5]; [cbn; by rewrite Hr|].
  destruct (N.eqb_spec c 0x22) as [->|N6]; [cbn; by rewrite Hr|].
  destruct (N.eqb_spec c 0x5C) as [->|N7]; [cbn; by rewrite Hr|].
  destruct (N.ltb_spec c 0x20) as [Hlt|Hge].
  - apply read_escape; [lia | exact Hr].
  - apply read_plain; [by apply N.eqb_neq | by apply N.eqb_neq | exact Hge | exact Hr].
Qed.

Lemma surrogate_plain c :
  is_high_surrogate c = true \/ is_low_surrogate c = true ->
  (c =? 34)%N = false /\ (c =? 92)%N = false /\ (c < 65536)%N /\ (32 <= c)%N.
Proof.
  unfold is_high_surrogate, is_low_surrogate.
  intros [H|H]; apply andb_true_iff in H as [H1 H2];
    apply N.leb_le in H1, H2; repeat split; try (apply N.eqb_neq); lia.
Qed.

(** [read_string] undoes [QuoteJSONString], whatever the text. *)
Lemma read_quoted n : forall s tail,
  (length s <= n)%nat ->
  read_string (quote_units s ++ [34%N] ++ tail) = Some (s, tail).
Proof.
  induction n as [|n IH]; intros s tail Hlen.
  - destruct s; [reflexivity | cbn in Hlen; lia].
  - destruct s as [|c r]; [reflexivity|]. cbn [length] in Hlen.
    assert (Hr : read_string (quote_units r ++ [34%N] ++ tail) = Some (r, tail))
      by (apply IH; lia).
    cbn [quote_units]. destruct (is_high_surrogate c) eqn:Hh.
    + destruct (surrogate_plain c (or_introl Hh)) as (P1 & P2 & P3 & P4).
      destruct r as [|d r'].
      * by apply read_escape.
      * destruct (is_low_surrogate d) eqn:Hl.
        -- destruct (surrogate_plain d (or_intror Hl)) as (Q1 & Q2 & _ & Q4).
           cbn [app]. apply read_plain; [exact P1 | exact P2 | exact P4|].
           apply read_plain; [exact Q1 | exact Q2 | exact Q4|].
           apply IH. cbn [length] in Hlen. lia.
        -- rewrite <- app_assoc. by apply read_escape.
    + destruct (is_low_surrogate c) eqn:Hl.
      * destruct (surrogate_plain c (or_intror Hl)) as (_ & _ & P3 & _).
        rewrite <- app_assoc. by apply read_escape.
      * rewrite <- app_assoc. by apply read_escape_unit.
Qed.

Lemma after_prefix_app pre s : after_prefix pre (pre ++ s) = Some s.
Proof.
  induction pre as [|c pre IH]; [by destruct s|]. cbn. by rewrite N.eqb_refl.
Qed.

(** The stored text gives back the name and the time text it was made of. *)
Lemma read_stringified name joinedAt :
  read_record (stringify_record (Some name) joinedAt) = Some (name, joinedAt).
Proof.
  assert (E : stringify_record (Some name) joinedAt
              = (js "{" ++ QuoteJSONString (js "name") ++ js ":" ++ [34%N])
                ++ quote_units name ++ [34%N]
                ++ (js "," ++ QuoteJSONString (js "joinedAt") ++ js ":" ++ [34%N])
                ++ quote_units joinedAt ++ [34%N] ++ js "}").
  { unfold stringify_record, QuoteJSONString. repeat rewrite <- app_assoc.
    reflexivity. }
  unfold read_record. rewrite E, after_prefix_app.
  rewrite (read_quoted (length name) name) by lia.
  rewrite after_prefix_app.
  rewrite (read_quoted (length joinedAt) joinedAt) by lia.
  reflexivity.
Qed.

(** Dates *)

Lemma civil_round_trip day :
  exists y m d,
    civil_from_days day = (y, m, d)
    /\ days_from_civil y m d = day
    /\ 1 <= m <= 12 /\ 1 <= d <= 31
    /\ (day + 719468) / 146097 * 400 <= y <= (day + 719468) / 146097 * 400 + 400.
Proof.
  unfold civil_from_days.
  set (z := day + 719468). set (era := z / 146097). set (doe := z - era * 146097).
  assert (Hdoe : 0 <= doe <= 146096).
  { unfold doe, era. pose proof (Z.mod_pos_bound z 146097 ltac:(lia)).
    rewrite Z.mod_eq in H by lia. lia. }
  set (yoe := (doe - doe / 1460 + doe / 36524 - doe / 146096) / 365).
  assert (Hy : 0 <= yoe <= 399
               /\ 0 <= doe - (365 * yoe + yoe / 4 - yoe / 100) <= 365).
  { unfold yoe. Z.div_mod_to_equations. lia. }
  set (doy := doe - (365 * yoe + yoe / 4 - yoe / 100)) in *.
  set (mp := (5 * doy + 2) / 153).
  assert (Hmp : 0 <= mp <= 11) by (unfold mp; Z.div_mod_to_equations; lia).
  assert (Hd : 1 <= doy - (153 * mp + 2) / 5 + 1 <= 31)
    by (unfold mp; Z.div_mod_to_equations; lia).
  do 3 eexists. split; [reflexivity|].
  assert (Hera : forall k, 0 <= k <= 399 -> (k + era * 400) / 400 = era)
    by (intros k Hk; Z.div_mod_to_equations; lia).
  split; [|split; [|split]].
  - unfold days_from_civil. destruct (Z.ltb_spec mp 10) as [H10|H10].
    + destruct (Z.leb_spec (mp + 3) 2); [lia|].
      destruct (Z.ltb_spec 2 (mp + 3)); [|lia].
      rewrite (Hera yoe) by lia.
      replace (mp + 3 - 3) with mp by lia.
      replace (yoe + era * 400 - era * 400) with yoe by lia.
      unfold doy, doe, z. lia.
    + destruct (Z.leb_spec (mp - 9) 2); [|lia].
      destruct (Z.ltb_spec 2 (mp - 9)); [lia|].
      replace (yoe + era * 400 + 1 - 1) with (yoe + era * 400) by lia.
      rewrite (Hera yoe) by lia.
      replace (mp - 9 + 9) with mp by lia.
      replace (yoe + era * 400 - era * 400) with yoe by lia.
      unfold doy, doe, z. lia.
  - destruct (Z.ltb_spec mp 10); lia.
  - exact Hd.
  - fold era. destruct (Z.ltb_spec mp 10);
      [destruct (Z.leb_spec (mp + 3) 2) | destruct (Z.leb_spec (mp - 9) 2)]; lia.
Qed.

Lemma digit_of n : 0 <= n < 10 -> digit (Z.to_N (48 + n)) = Some n.
Proof.
  intros H. unfold digit.
  destruct (N.leb_spec 48 (Z.to_N (48 + n))); [|lia].
  destruct (N.leb_spec (Z.to_N (48 + n)) 57); [|lia].
  cbn [andb]. f_equal. lia.
Qed.

Lemma read_digits_step w : forall acc s,
  read_digits (S w) acc s
  = match read_digits w acc s with
    | Some (v, c :: r) =>
        match digit c with Some d => Some (10 * v + d, r) | None => None end
    | _ => None
    end.
Proof.
  induction w as [|w IH]; intros acc s.
  - cbn. destruct s as [|c r]; [reflexivity|]. by destruct (digit c).
  - change (read_digits (S (S w)) acc s)
      with (match s with
            | c :: r => match digit c with
                        | Some d => read_digits (S w) (10 * acc + d) r
                        | None => None
                        end
            | [] => None
            end).
    destruct s as [|c r]; [reflexivity|]. cbn [read_digits].
    destruct (digit c) as [d|]; [|reflexivity]. apply IH.
Qed.

Lemma read_padded w : forall n acc rest,
  0 <= n < 10 ^ Z.of_nat w ->
  read_digits w acc (dec_pad w n ++ rest) = Some (acc * 10 ^ Z.of_nat w + n, rest).
Proof.
  induction w as [|w IH]; intros n acc rest Hn.
  - cbn in *. f_equal. f_equal. lia.
  - rewrite read_digits_step. cbn [dec_pad]. rewrite <- app_assoc.
    assert (Hp : 10 ^ Z.of_nat (S w) = 10 * 10 ^ Z.of_nat w).
    { rewrite Nat2Z.inj_succ, Z.pow_succ_r by lia. reflexivity. }
    rewrite Hp in *.
    assert (Hq : 0 <= n / 10 < 10 ^ Z.of_nat w) by (Z.div_mod_to_equations; lia).
    rewrite (IH (n / 10) acc _ Hq). cbn [app].
    rewrite digit_of by (apply Z.mod_pos_bound; lia).
    f_equal. f_equal. Z.div_mod_to_equations. lia.
Qed.

Lemma padded_head w n :
  exists c r, dec_pad (S w) n = c :: r /\ (c =? 45)%N = false /\ (c =? 43)%N = false.
Proof.
  revert n. induction w as [|w IH]; intros n.
  - cbn. do 2 eexists. split; [reflexivity|].
    pose proof (Z.mod_pos_bound n 10 ltac:(lia)).
    split; apply N.eqb_neq; lia.
  - destruct (IH (n / 10)) as (c & r & E & H1 & H2).
    change (dec_pad (S (S w)) n)
      with (dec_pad (S w) (n / 10) ++ [Z.to_N (48 + n mod 10)]).
    rewrite E. cbn. by do 2 eexists.
Qed.

Lemma read_iso_year y rest :
  -999999 <= y <= 999999 ->
  read_year (iso_year y ++ rest) = Some (y, rest).
Proof.
  intros Hy. unfold iso_year.
  destruct (Z.leb_spec 0 y) as [H0|H0]; cbn [andb].
  - destruct (Z.leb_spec y 9999) as [H1|H1].
    + destruct (padded_head 3 y) as (c & r & E & N1 & N2).
      unfold read_year. rewrite E. cbn [app]. rewrite N1, N2.
      change (c :: r ++ rest) with ((c :: r) ++ rest). rewrite <- E.
      rewrite read_padded by (cbn; lia). f_equal; f_equal; lia.
    + destruct (Z.ltb_spec y 0); [lia|]. cbn [app read_year N.eqb Pos.eqb].
      rewrite read_padded by (cbn; lia). f_equal; f_equal; lia.
  - destruct (Z.ltb_spec y 0); [|lia]. cbn [app read_year N.eqb Pos.eqb].
    rewrite read_padded by (cbn; lia). f_equal; f_equal; lia.
Qed.

Lemma ms_fields ms :
  0 <= ms ->
  ((ms / 3600000 * 60 + ms / 60000 mod 60) * 60 + ms / 1000 mod 60) * 1000
  + ms mod 1000 = ms.
Proof.
  intros H.
  assert (E1 : ms / 60000 = ms / 1000 / 60) by (rewrite Z.div_div by lia; reflexivity).
  assert (E2 : ms / 3600000 = ms / 1000 / 60 / 60) by (rewrite !Z.div_div by lia; reflexivity).
  rewrite E1, E2.
  pose proof (Z.div_mod ms 1000 ltac:(lia)).
  pose proof (Z.div_mod (ms / 1000) 60 ltac:(lia)).
  pose proof (Z.div_mod (ms / 1000 / 60) 60 ltac:(lia)).
  lia.
Qed.

Lemma read_unit_head c s : read_unit c (c :: s) = Some s.
Proof. cbn. by rewrite N.eqb_refl. Qed.

Lemma read_field w n rest :
  0 <= n < 10 ^ Z.of_nat w ->
  read_digits w 0 (dec_pad w n ++ rest) = Some (n, rest).
Proof. intros H. rewrite read_padded by exact H. f_equal; f_equal; lia. Qed.

(** [read_iso] undoes [toISOString] on every time value of a [Date]. *)
Lemma read_iso_string t : date_range t -> read_iso (toISOString t) = Some t.
Proof.
  intros Ht. unfold date_range in Ht. unfold toISOString.
  destruct (civil_round_trip (t / msPerDay)) as (y & m & d & E & Hback & Hm & Hd & Hy).
  rewrite E. unfold msPerDay in *.
  assert (Hms : 0 <= t mod 86400000 < 86400000) by (apply Z.mod_pos_bound; lia).
  assert (Hyr : -999999 <= y <= 999999).
  { assert (He : -700 <= (t / 86400000 + 719468) / 146097 <= 700)
      by (Z.div_mod_to_equations; lia).
    lia. }
  remember (t mod 86400000) as ms eqn:Ems.
  assert (H1 : 0 <= ms / 3600000 < 10 ^ Z.of_nat 2)
    by (cbn; Z.div_mod_to_equations; lia).
  assert (H2 : 0 <= ms / 60000 mod 60 < 10 ^ Z.of_nat 2)
    by (cbn; Z.div_mod_to_equations; lia).
  assert (H3 : 0 <= ms / 1000 mod 60 < 10 ^ Z.of_nat 2)
    by (cbn; Z.div_mod_to_equations; lia).
  assert (H4 : 0 <= ms mod 1000 < 10 ^ Z.of_nat 3)
    by (cbn; Z.div_mod_to_equations; lia).
  assert (H5 : 0 <= m < 10 ^ Z.of_nat 2) by (cbn; lia).
  assert (H6 : 0 <= d < 10 ^ Z.of_nat 2) by (cbn; lia).
  change (js "-") with [45%N]. change (js "T") with [84%N].
  change (js ":") with [58%N]. change (js ".") with [46%N].
  change (js "Z") with [90%N].
  unfold read_iso.
  rewrite read_iso_year by exact Hyr. cbn [mbind option_bind app].
  rewrite read_unit_head. cbn [mbind option_bind app].
  rewrite (read_field 2 m) by exact H5. cbn [mbind option_bind app].
  rewrite read_unit_head. cbn [mbind option_bind app].
  rewrite (read_field 2 d) by exact H6. cbn [mbind option_bind app].
  rewrite read_unit_head. cbn [mbind option_bind app].
  rewrite (read_field 2 (ms / 3600000)) by exact H1. cbn [mbind option_bind app].
  rewrite read_unit_head. cbn [mbind option_bind app].
  rewrite (read_field 2 (ms / 60000 mod 60)) by exact H2. cbn [mbind option_bind app].
  rewrite read_unit_head. cbn [mbind option_bind app].
  rewrite (read_field 2 (ms / 1000 mod 60)) by exact H3. cbn [mbind option_bind app].
  rewrite read_unit_head. cbn [mbind option_bind app].
  rewrite (read_field 3 (ms mod 1000)) by exact H4. cbn [mbind option_bind app].
  rewrite read_unit_head. cbn [mbind option_bind app].
  f_equal. rewrite Hback. unfold msPerDay.
  pose proof (ms_fields ms ltac:(lia)) as Hf. subst ms.
  pose proof (Z.div_mod t 86400000 ltac:(lia)). lia.
Qed.

End ReadingFacts.

(** ** An accepted submission *)

Module SubmissionFacts.
Import JS CTA Reading FormFacts ModalFacts ReadingFacts.

(** The callbacks of the submit handler wait in the queue: an event that is
    not the run of a due callback leaves the queue's earlier entries alone. *)
Lemma lookup_new_timeout (l : list (Z * action)) x :
  (l ++ [x]) !! length l = Some x.
Proof. by rewrite list_lookup_middle. Qed.

Lemma delete_new_timeout (l : list (Z * action)) x :
  delete (length l) (l ++ [x]) = l.
Proof.
  induction l as [|y l IH]; [reflexivity|]. simpl. f_equal. exact IH.
Qed.

Lemma submit_valid key fd p :
  wired p = true -> validateForm (payload_of fd) = [] ->
  step key (Submit fd) p
  = setTimeout (WriteRecord (name (payload_of fd))) 900
      (set_feedback (js "Submitting...") false p).
Proof.
  intros Hw Hval. cbn [step]. rewrite Hw. unfold on_submit. by rewrite Hval.
Qed.

Lemma timeout_runs key p i d a :
  wired p = true -> timeouts p !! i = Some (d, a) -> d <= clock p ->
  step key (Timeout i) p = run_action key a (set_timeouts (delete i (timeouts p)) p).
Proof.
  intros Hw Hi Hd. cbn [step]. rewrite Hw. unfold on_timeout. rewrite Hi.
  by destruct (Z.leb_spec d (clock p)); [|lia].
Qed.

Lemma timeout_waits key p i d a :
  wired p = true -> timeouts p !! i = Some (d, a) -> clock p < d ->
  step key (Timeout i) p = p.
Proof.
  intros Hw Hi Hd. cbn [step]. rewrite Hw. unfold on_timeout. rewrite Hi.
  by destruct (Z.leb_spec d (clock p)); [lia|].
Qed.


(** A scheduled callback leaves the queue only by running. *)
Lemma timeouts_step key e p x :
  (forall j, e <> Timeout j) -> In x (timeouts p) -> In x (timeouts (step key e p)).
Proof.
  intros Hne Hin.
  assert (Hsa : forall q, timeouts (showAfter key q) = timeouts q).
  { intros q. unfold showAfter. by destruct (shown q || joined key q). }
  assert (Hsh : forall q, timeouts (scrollHandler key q) = timeouts q).
  { intros q. unfold scrollHandler. destruct (past_threshold q); [|reflexivity].
    by rewrite Hsa. }
  destruct e; cbn [step]; modal_simpl; try exact Hin;
    try (destruct (wired p) eqn:Hw; cbn [andb]; [|exact Hin]).
  - unfold on_scroll. modal_simpl.
    destruct (Throttle.call 250 (clock p) () (scroll_throttle p)) as [th [u|]];
      [rewrite Hsh|]; exact Hin.
  - unfold on_scroll.
    destruct (Throttle.call 250 (clock p) () (scroll_throttle p)) as [th [u|]];
      [rewrite Hsh|]; exact Hin.
  - unfold on_show_timer. destruct (timed p) as [d|]; [|exact Hin].
    destruct (d <=? clock p); [rewrite Hsa|]; exact Hin.
  - unfold on_throttle_timer.
    destruct (Throttle.fire (clock p) (scroll_throttle p)) as [th [u|]];
      [rewrite Hsh|]; exact Hin.
  - by destruct (Hne i).
  - unfold on_submit. destruct (0 <? length (validateForm (payload_of fd)))%nat;
      modal_simpl; [exact Hin|]. apply in_or_app. by left.
  - exact Hin.
  - exact Hin.
  - exact Hin.
  - destruct (modal_open p); exact Hin.
Qed.

Lemma timeouts_run key evs x : forall p,
  Forall (fun e => forall j, e <> Timeout j) evs ->
  In x (timeouts p) -> In x (timeouts (run key evs p)).
Proof.
  induction evs as [|e evs IH]; intros p Hall Hin; [exact Hin|].
  inversion Hall as [|? ? He Hall']; subst. rewrite run_cons.
  apply IH; [exact Hall'|]. by apply timeouts_step.
Qed.


(** The text of the record of Asha joining at time 1900, the quotation
    mark written as its code unit. *)
Definition asha_record : jsstring :=
  let q := [34%N] in
  js "{" ++ q ++ js "name" ++ q ++ js ":" ++ q ++ js "Asha" ++ q ++ js ","
  ++ q ++ js "joinedAt" ++ q ++ js ":" ++ q ++ js "1970-01-01T00:00:01.900Z" ++ q
  ++ js "}".


End SubmissionFacts.

(** ** The throttled function *)

Module ThrottleFacts.
Import Throttle.

Section Facts.
Context {A : Type}.
Implicit Types (s : state A) (evs burst : list (event A)) (l : list (exec A)).

(** A pending timer is due exactly [wait] after the last application. *)
Definition timer_ok (wait : Z) s : Prop :=
  forall d a, timer s = Some (d, a) -> d = last s + wait.

Lemma init_ok wait : timer_ok wait (@init A).
Proof. intros d a [=]. Qed.

Lemma step_spaced wait (e : event A) s :
  timer_ok wait s ->
  timer_ok wait (fst (step wait e s))
  /\ ((snd (step wait e s) = [] /\ last (fst (step wait e s)) = last s)
      \/ exists x, snd (step wait e s) = [x] /\ last s + wait <= at_time x
                   /\ last (fst (step wait e s)) = at_time x).
Proof.
  intros Hok. destruct e as [t a|t]; cbn [step].
  - unfold call. destruct (Z.leb_spec (wait - (t - last s)) 0) as [Hle|Hgt]; cbn.
    + split; [intros d b [=]|]. right. eexists. split; [reflexivity|]. cbn. lia.
    + destruct (timer s) as [[d b]|] eqn:Et; cbn.
      * split; [exact Hok | by left].
      * split; [|by left]. intros d b [= <- <-]. cbn. lia.
  - unfold fire. destruct (timer s) as [[d b]|] eqn:Et; cbn.
    + destruct (Z.leb_spec d t) as [Hle|Hgt]; cbn.
      * split; [intros d' b' [=]|]. right. eexists. split; [reflexivity|]. cbn.
        rewrite <- (Hok d b Et). lia.
      * split; [exact Hok | by left].
    + split; [exact Hok | by left].
Qed.

Lemma trace_cons wait (e : event A) evs s :
  run wait (e :: evs) s =
  (fst (run wait evs (fst (step wait e s))),
   snd (step wait e s) ++ snd (run wait evs (fst (step wait e s)))).
Proof.
  cbn [run]. destruct (step wait e s) as [s1 l1]. cbn [fst snd].
  destruct (run wait evs s1) as [s2 l2]. reflexivity.
Qed.

Lemma trace_app wait evs1 : forall evs2 s,
  run wait (evs1 ++ evs2) s =
  (fst (run wait evs2 (fst (run wait evs1 s))),
   snd (run wait evs1 s) ++ snd (run wait evs2 (fst (run wait evs1 s)))).
Proof.
  induction evs1 as [|e evs1 IH]; intros evs2 s.
  - cbn. by destruct (run wait evs2 s).
  - rewrite <- app_comm_cons, !trace_cons, IH. cbn [fst snd].
    by rewrite app_assoc.
Qed.

Lemma run_spaced wait evs : forall s,
  timer_ok wait s -> spaced wait (last s) (snd (run wait evs s)).
Proof.
  induction evs as [|e evs IH]; intros s Hok; [exact I|].
  rewrite trace_cons. cbn [snd].
  destruct (step_spaced wait e s Hok) as [Hok' [[-> Hl] | (x & -> & Hx & Hl)]].
  - cbn [app]. rewrite <- Hl. by apply IH.
  - cbn [app spaced]. split; [exact Hx|]. rewrite <- Hl. by apply IH.
Qed.

Lemma spaced_lower wait l : forall t0,
  0 <= wait -> spaced wait t0 l -> Forall (fun e => t0 + wait <= at_time e) l.
Proof.
  induction l as [|x l IH]; intros t0 Hw Hs; [constructor|].
  destruct Hs as [Hx Hs]. constructor; [exact Hx|].
  eapply Forall_impl; [apply (IH _ Hw Hs)|]. cbn. intros e He. lia.
Qed.

Lemma window_empty wait x b l :
  x + wait <= b -> Forall (fun e => b <= at_time e) l -> in_window_execs wait x l = [].
Proof.
  intros Hb Hall. unfold in_window_execs. induction Hall as [|e l He _ IH]; [reflexivity|].
  cbn [List.filter]. destruct (Z.ltb_spec (at_time e) (x + wait)); [lia|].
  rewrite andb_false_r. exact IH.
Qed.

Lemma spaced_window wait x l : forall t0,
  spaced wait t0 l -> (length (in_window_execs wait x l) <= 1)%nat.
Proof.
  destruct (Z_lt_dec wait 0) as [Hneg|Hpos].
  - intros t0 _. unfold in_window_execs.
    induction l as [|e l IH]; [cbn; lia|]. cbn [List.filter].
    destruct (Z.leb_spec x (at_time e)), (Z.ltb_spec (at_time e) (x + wait));
      cbn [andb]; try exact IH. lia.
  - induction l as [|e l IH]; intros t0 Hs; [cbn; lia|].
    destruct Hs as [He Hs]. unfold in_window_execs. cbn [List.filter].
    destruct (Z.leb_spec x (at_time e)), (Z.ltb_spec (at_time e) (x + wait));
      cbn [andb]; try (apply (IH _ Hs)).
    fold (in_window_execs wait x l).
    rewrite (window_empty wait x (at_time e + wait) l); [cbn; lia | lia |].
    apply spaced_lower; [lia | exact Hs].
Qed.

(** The state during a window opened at [t0]: [pend] holds the arguments
    captured by the pending timer, if one is armed. *)
Definition during (wait t0 : Z) (pend : option A) : state A :=
  {| last := t0; timer := option_map (fun a => (t0 + wait, a)) pend |}.

(** Inside the window no call applies [fn]; the first call arms the timer
    with its own arguments and the later ones are dropped. *)
Lemma burst_defers wait t0 burst : forall pend,
  in_window wait t0 burst ->
  run wait burst (during wait t0 pend)
  = (during wait t0 (match pend with Some a => Some a | None => first_call burst end),
     []).
Proof.
  induction burst as [|e burst IH]; intros pend Hin.
  - cbn. by destruct pend.
  - inversion Hin as [|? ? [He1 He2] Hin']; subst. rewrite trace_cons.
    assert (E : step wait e (during wait t0 pend)
                = (during wait t0
                     (match pend with
                      | Some a => Some a
                      | None => match e with Call _ a => Some a | Loop _ => None end
                      end), [])).
    { destruct e as [t a|t]; cbn [step time_of] in *.
      - unfold call. cbn [during last timer].
        destruct (Z.leb_spec (wait - (t - t0)) 0); [lia|].
        destruct pend as [b|]; cbn [option_map]; [reflexivity|].
        unfold during. cbn [option_map]. do 4 f_equal. lia.
      - unfold fire. cbn [during timer]. destruct pend as [b|]; cbn [option_map].
        + destruct (Z.leb_spec (t0 + wait) t); [lia | reflexivity].
        + reflexivity. }
    rewrite E. cbn [fst snd]. rewrite (IH _ Hin'). cbn [fst snd app].
    f_equal. f_equal. destruct pend as [b|]; [reflexivity|].
    destruct e; reflexivity.
Qed.

(** C3, as the code has it.  A call that finds the window elapsed applies
    [fn] at once; the further events of its window apply nothing; when the
    window has passed, the timer applies [fn] exactly once if the burst held
    a further call, with the arguments of the first such call (the one that
    armed the timer), and not at all otherwise.  In every trace from the
    initial state any window of length [wait] holds at most one
    application. *)
Theorem throttle_burst wait s t0 (a0 : A) burst t :
  last s + wait <= t0 ->
  in_window wait t0 burst ->
  t0 + wait <= t ->
  snd (run wait (Call t0 a0 :: burst ++ [Loop t]) s)
  = Exec t0 Leading a0
    :: match first_call burst with
       | Some a => [Exec t Trailing a]
       | None => []
       end
  /\ timer (fst (run wait (Call t0 a0 :: burst ++ [Loop t]) s)) = None
  /\ (forall evs x,
        (length (in_window_execs wait x (snd (run wait evs (@init A)))) <= 1)%nat).
Proof.
  intros H0 Hin Ht.
  assert (E0 : step wait (Call t0 a0) s = (during wait t0 None, [Exec t0 Leading a0])).
  { cbn [step]. unfold call. destruct (Z.leb_spec (wait - (t0 - last s)) 0); [|lia].
    reflexivity. }
  assert (E : run wait (Call t0 a0 :: burst ++ [Loop t]) s
              = (fst (step wait (Loop t) (during wait t0 (first_call burst))),
                 Exec t0 Leading a0
                   :: snd (step wait (Loop t) (during wait t0 (first_call burst))))).
  { rewrite trace_cons, E0. cbn [fst snd]. rewrite trace_app, burst_defers by exact Hin.
    cbn [fst snd app run].
    destruct (step wait (Loop t) (during wait t0 (first_call burst))) as [s' l'].
    cbn [fst snd app]. by rewrite ?app_nil_r. }
  rewrite E. cbn [fst snd step]. unfold fire, during. cbn [timer].
  split; [|split].
  - destruct (first_call burst) as [a|]; cbn [option_map]; [|reflexivity].
    destruct (Z.leb_spec (t0 + wait) t); [reflexivity | lia].
  - destruct (first_call burst) as [a|]; cbn [option_map]; [|reflexivity].
    destruct (Z.leb_spec (t0 + wait) t); [reflexivity | lia].
  - intros evs x. apply (spaced_window wait x _ (last (@init A))).
    apply run_spaced, init_ok.
Qed.

End Facts.

Lemma throttle_burst_witness :
  snd (run 100 [Call 1000 1; Call 1010 2; Loop 1050; Call 1020 3; Loop 1100] init)
  = [Exec 1000 Leading 1; Exec 1100 Trailing 2].
Proof.
  apply (throttle_burst 100 init 1000 1 [Call 1010 2; Loop 1050; Call 1020 3] 1100).
  - vm_compute. discriminate.
  - repeat constructor; vm_compute; congruence.
  - vm_compute. discriminate.
Defined.

(** The claim as first stated fails: in a burst of three calls the trailing
    application carries the arguments of the second call, not those of the
    final one. *)
Lemma throttle_burst_counterexample :
  let burst := [Call 1010 2; Call 1020 3] in
  snd (run 100 (Call 1000 1 :: burst ++ [Loop 1100]) init)
  = [Exec 1000 Leading 1; Exec 1100 Trailing 2]
  /\ final_call burst = Some 3
  /\ Some 2 <> final_call burst.
Proof. vm_compute. repeat split. discriminate. Qed.

End ThrottleFacts.

(** ** The rotator is cyclic *)

Module RotatorFacts.
Import JS Rotator.

Local Open Scope nat_scope.

(** The element shows testimonial [r]; the next index is [j]. *)
Definition view (r : Testimonial) (j : nat) (st : state) : state :=
  {| review_text := text r;
     has_author := has_author st;
     author_text := if has_author st then author r else author_text st;
     idx := j |}.

Lemma view_view r1 j1 r2 j2 st : view r2 j2 (view r1 j1 st) = view r2 j2 st.
Proof. unfold view. cbn. by destruct (has_author st). Qed.

Section Generic.
Variable items : list Testimonial.
Hypothesis nonempty : 0 < length items.

Lemma item_at i : exists r, items !! (i mod length items) = Some r.
Proof.
  apply lookup_lt_is_Some. apply Nat.mod_upper_bound. lia.
Qed.

Lemma set_in_view i st r :
  items !! (i mod length items) = Some r ->
  set_in items i st = Some (view r ((i + 1) mod length items) st).
Proof. intros H. unfold set_in. by rewrite H. Qed.

(** After [n + 1] ticks from index [j] the element shows item [j + n] and
    the next index is [j + n + 1], both modulo the length. *)
Lemma advance_n_view n : forall st r,
  items !! ((idx st + n) mod length items) = Some r ->
  advance_n_in items (S n) st
  = Some (view r ((idx st + n + 1) mod length items) st).
Proof.
  induction n as [|n IH]; intros st r Hr.
  - cbn [advance_n_in]. unfold advance_in. rewrite Nat.add_0_r in *.
    by rewrite (set_in_view _ _ r Hr).
  - destruct (item_at (idx st)) as [r1 Hr1].
    change (advance_n_in items (S (S n)) st)
      with (match advance_in items st with
            | Some st' => advance_n_in items (S n) st'
            | None => None
            end).
    unfold advance_in at 1. rewrite (set_in_view _ _ r1 Hr1).
    rewrite (IH _ r).
    + rewrite view_view. cbn [view idx]. f_equal. f_equal.
      rewrite <- Nat.add_assoc, Nat.Div0.add_mod_idemp_l. f_equal. lia.
    + cbn [view idx]. rewrite Nat.Div0.add_mod_idemp_l. rewrite <- Hr. f_equal. f_equal. lia.
Qed.

Lemma full_turn i st r :
  items !! (i mod length items) = Some r ->
  advance_n_in items (length items) (view r ((i + 1) mod length items) st)
  = Some (view r ((i + 1) mod length items) st).
Proof.
  intros Hr. pose (m := length items - 1).
  assert (Hm : length items = S m) by (unfold m; lia).
  assert (E1 : ((i + 1) mod length items + m) mod length items = i mod length items).
  { rewrite Nat.Div0.add_mod_idemp_l.
    replace (i + 1 + m) with (i + 1 * length items) by lia.
    apply Nat.Div0.mod_add. }
  rewrite Hm at 1. rewrite (advance_n_view m _ r).
  - rewrite view_view. f_equal. f_equal. cbn [view idx].
    rewrite <- Nat.add_assoc, Nat.Div0.add_mod_idemp_l.
    replace (i + 1 + (m + 1)) with (i + 1 + 1 * length items) by lia.
    apply Nat.Div0.mod_add.
  - cbn [view idx]. rewrite E1. exact Hr.
Qed.

End Generic.

(** C8: whatever index [set] is called with, it shows the testimonial at
    that index modulo the length, and as many ticks as the list is long
    bring the rotator back to that very state; every tick succeeds and
    moves the index by one modulo the length. *)
Theorem rotator_cyclic (i : nat) (st : state) :
  exists st0,
    set i st = Some st0
    /\ displays st0 (i mod length testimonials)
    /\ idx st0 = (i + 1) mod length testimonials
    /\ advance_n (length testimonials) st0 = Some st0
    /\ (forall s, exists s', advance s = Some s'
                             /\ idx s' = (idx s + 1) mod length testimonials
                             /\ displays s' (idx s mod length testimonials)).
Proof.
  assert (Hne : 0 < length testimonials) by (cbn; lia).
  destruct (item_at testimonials Hne i) as [r Hr].
  exists (view r ((i + 1) mod length testimonials) st).
  split; [by apply set_in_view|]. split; [|split; [reflexivity|split]].
  - exists r. split; [exact Hr|]. split; [reflexivity|].
    cbn [view has_author author_text]. by intros ->.
  - by apply full_turn.
  - intros s. destruct (item_at testimonials Hne (idx s)) as [r' Hr'].
    exists (view r' ((idx s + 1) mod length testimonials) s).
    split; [by apply set_in_view|]. split; [reflexivity|].
    exists r'. split; [exact Hr'|]. split; [reflexivity|].
    cbn [view has_author author_text]. by intros ->.
Qed.

(** The page at startup: [set(0)] shows the first testimonial; three ticks
    later it is shown again, and not before. *)
Example three_ticks :
  let blank := {| review_text := []; has_author := true; author_text := []; idx := 0 |} in
  exists st0, setupTestimonials true blank = Some st0
    /\ advance_n 3 st0 = Some st0
    /\ advance_n 1 st0 <> Some st0
    /\ advance_n 2 st0 <> Some st0.
Proof.
  eexists. split; [reflexivity|]. split; [reflexivity|].
  split; vm_compute; discriminate.
Qed.

End RotatorFacts.

(** ** Reveal is one-shot *)

Module RevealFacts.
Import Reveal.

Lemma on_entry_revealed el st e : revealed el st -> revealed el (on_entry st e).
Proof.
  unfold revealed, on_entry. intros [Ha Ho].
  destruct (isIntersecting e); cbn [active observed]; [|by split]. split.
  - by apply elem_of_union_r.
  - intros [Hin _]%elem_of_difference. by apply Ho.
Qed.

Lemma callback_revealed el entries : forall st,
  revealed el st -> revealed el (callback entries st).
Proof.
  induction entries as [|e entries IH]; intros st H; [exact H|].
  change (callback (e :: entries) st) with (callback entries (on_entry st e)).
  apply IH. by apply on_entry_revealed.
Qed.

Lemma on_entry_marks st e :
  isIntersecting e = true -> revealed (target e) (on_entry st e).
Proof.
  intros Hi. unfold revealed, on_entry. rewrite Hi. cbn [active observed]. split.
  - by apply elem_of_union_l, elem_of_singleton.
  - intros [_ Hne]%elem_of_difference. by apply Hne, elem_of_singleton.
Qed.

Lemma callback_marks e entries : forall st,
  In e entries -> isIntersecting e = true -> revealed (target e) (callback entries st).
Proof.
  induction entries as [|e' entries IH]; intros st Hin Hi; [destruct Hin|].
  change (callback (e' :: entries) st) with (callback entries (on_entry st e')).
  destruct Hin as [-> | Hin].
  - apply callback_revealed. by apply on_entry_marks.
  - by apply IH.
Qed.

Lemma on_entry_same el st e :
  revealed el st -> target e = el -> on_entry st e = st.
Proof.
  unfold revealed, on_entry. intros [Ha Ho] <-.
  destruct (isIntersecting e); [|reflexivity].
  destruct st as [act obs]. cbn [active observed] in *. f_equal.
  - apply leibniz_equiv. intros x. rewrite elem_of_union, elem_of_singleton.
    split; [intros [->|Hx]; assumption | by right].
  - apply leibniz_equiv. intros x. rewrite elem_of_difference, elem_of_singleton.
    split; [by intros [Hx _] | intros Hx; split; [exact Hx | by intros ->]].
Qed.

Lemma callback_same el entries st :
  revealed el st -> Forall (fun e => target e = el) entries ->
  callback entries st = st.
Proof.
  intros Hr Hall. induction Hall as [|e entries He _ IH]; [reflexivity|].
  unfold callback in *. cbn [foldl]. by rewrite (on_entry_same el st e Hr He).
Qed.

(** C9: an intersecting entry marks its target active and cancels its
    observation; once an element is revealed, no batch of entries hides it
    or observes it again, entries for that element leave the whole state
    unchanged, and the browser has nothing left to report for it. *)
Theorem reveal_one_shot (el : nat) (st : state) (entries : list entry) :
  revealed el st ->
  revealed el (callback entries st)
  /\ revealed el (deliver entries st)
  /\ (Forall (fun e => target e = el) entries -> callback entries st = st)
  /\ (Forall (fun e => target e = el) entries -> deliver entries st = st)
  /\ (forall st' e, In e entries -> isIntersecting e = true ->
        revealed (target e) (callback entries st')).
Proof.
  intros Hr. split; [by apply callback_revealed|].
  split; [by apply callback_revealed|].
  split; [by apply callback_same|]. split.
  - intros Hall. unfold deliver. apply (callback_same el); [exact Hr|].
    apply Forall_forall. intros e He%list_elem_of_In.
    apply filter_In in He as [He%list_elem_of_In _].
    by apply (proj1 (Forall_forall _ _) Hall).
  - intros st' e. apply callback_marks.
Qed.

Lemma reveal_one_shot_witness :
  let st0 := setupScrollReveal false [1; 2; 3]%nat {| active := ∅; observed := ∅ |} in
  let st1 := deliver [ {| target := 2%nat; isIntersecting := true |} ] st0 in
  revealed 2%nat st1
  /\ callback [ {| target := 2%nat; isIntersecting := false |};
                {| target := 2%nat; isIntersecting := true |} ] st1 = st1.
Proof.
  intros st0 st1.
  assert (Hr : revealed 2%nat st1).
  { apply (callback_marks {| target := 2%nat; isIntersecting := true |});
      [|reflexivity].
    vm_compute. by left. }
  split; [exact Hr|].
  destruct (reveal_one_shot 2%nat st1
              [ {| target := 2%nat; isIntersecting := false |};
                {| target := 2%nat; isIntersecting := true |} ] Hr)
    as (_ & _ & Hsame & _).
  apply Hsame. by repeat constructor.
Defined.

End RevealFacts.

(** ** The helper [clamp] *)

Module UtilFacts.
Import Util.

Lemma max_cases (x y : Qc) :
  ((x < y)%Qc /\ max x y = y) \/ ((y <= x)%Qc /\ max x y = x).
Proof.
  unfold max. case_bool_decide; [by left | right]. split; [by apply Qcnot_lt_le | reflexivity].
Qed.
Lemma min_cases (x y : Qc) :
  ((y < x)%Qc /\ min x y = y) \/ ((x <= y)%Qc /\ min x y = x).
Proof.
  unfold min. case_bool_decide; [by left | right]. split; [by apply Qcnot_lt_le | reflexivity].
Qed.
Ltac qc_order :=
  solve [ assumption | apply Qcle_refl | apply Qclt_le_weak; assumption
        | eapply Qcle_trans; eassumption
        | eapply Qclt_le_weak, Qclt_le_trans; eassumption
        | exfalso; match goal with
          | H1 : (?x < ?y)%Qc, H2 : (?y <= ?x)%Qc |- _ => exact (Qclt_not_le _ _ H1 H2)
          | H1 : (?x < ?y)%Qc, H2 : (?y <= ?z)%Qc, H3 : (?z <= ?x)%Qc |- _ =>
              exact (Qclt_not_le _ _ (Qclt_le_trans _ _ _ H1 H2) H3)
          | H1 : (?x < ?y)%Qc, H2 : (?y < ?z)%Qc, H3 : (?z <= ?x)%Qc |- _ =>
              exact (Qclt_not_le _ _ (Qclt_trans _ _ _ H1 H2) H3)
          | H1 : (?x < ?y)%Qc, H2 : (?y < ?x)%Qc |- _ =>
              exact (Qclt_not_le _ _ H1 (Qclt_le_weak _ _ H2))
          end ].

(** X1: with ordered bounds [clamp] returns a value inside them, leaves a
    value that is already inside alone and moves the others to the nearer
    bound; with the bounds swapped it returns the upper argument whatever
    the value is. *)
Theorem clamp_within (v a b : Qc) :
  (a <= b)%Qc ->
  ((a <= clamp v a b)%Qc /\ (clamp v a b <= b)%Qc)
  /\ ((a <= v)%Qc -> (v <= b)%Qc -> clamp v a b = v)
  /\ ((v < a)%Qc -> clamp v a b = a)
  /\ ((b < v)%Qc -> clamp v a b = b)
  /\ (forall lo hi, (hi < lo)%Qc -> clamp v lo hi = hi).
Proof.
  intros Hab. unfold clamp. repeat split.
  - destruct (max_cases v a) as [[H1 ->]|[H1 ->]], (min_cases a b) as [[H2 E2]|[H2 E2]],
      (min_cases v b) as [[H3 E3]|[H3 E3]]; rewrite ?E2, ?E3; qc_order.
  - destruct (max_cases v a) as [[H1 ->]|[H1 ->]], (min_cases a b) as [[H2 E2]|[H2 E2]],
      (min_cases v b) as [[H3 E3]|[H3 E3]]; rewrite ?E2, ?E3; qc_order.
  - intros Hav Hvb.
    destruct (max_cases v a) as [[H1 ->]|[H1 ->]].
    + qc_order.
    + destruct (min_cases v b) as [[H3 E3]|[H3 E3]]; rewrite E3; [qc_order | reflexivity].
  - intros Hva. destruct (max_cases v a) as [[H1 ->]|[H1 ->]]; [|qc_order].
    destruct (min_cases a b) as [[H3 E3]|[H3 E3]]; rewrite E3; [qc_order | reflexivity].
  - intros Hbv. destruct (max_cases v a) as [[H1 ->]|[H1 ->]].
    + qc_order.
    + destruct (min_cases v b) as [[H3 E3]|[H3 E3]]; rewrite E3; [reflexivity | qc_order].
  - intros lo hi Hlt. destruct (max_cases v lo) as [[H1 ->]|[H1 ->]].
    + destruct (min_cases lo hi) as [[H3 E3]|[H3 E3]]; rewrite E3; [reflexivity | qc_order].
    + destruct (min_cases v hi) as [[H3 E3]|[H3 E3]]; rewrite E3; [reflexivity | qc_order].
Qed.

Lemma clamp_within_witness :
  (Q2Qc 0 <= Q2Qc 10)%Qc
  /\ clamp (Q2Qc 12) (Q2Qc 0) (Q2Qc 10) = Q2Qc 10
  /\ clamp (Q2Qc 5) (Q2Qc 10) (Q2Qc 0) = Q2Qc 0.
Proof.
  assert (H : (Q2Qc 0 <= Q2Qc 10)%Qc) by (vm_compute; discriminate).
  split; [exact H|].
  destruct (clamp_within (Q2Qc 12) (Q2Qc 0) (Q2Qc 10) H) as (_ & _ & _ & Hb & _).
  destruct (clamp_within (Q2Qc 5) (Q2Qc 0) (Q2Qc 10) H) as (_ & _ & _ & _ & Hs).
  split; [apply Hb | apply Hs]; reflexivity.
Defined.

End UtilFacts.

(** ** The navigation highlight *)

Module NavFacts.
Import Nav.

(** Section [r] (its [rect.top]) lies at or above the line: the test
    [absTop <= top] of the code, on doubles, is true. *)
Definition reached (scrollY innerHeight r : float) : Prop :=
  PrimFloat.leb (PrimFloat.add scrollY r) (line scrollY innerHeight) = true.

(** The last section at or above the line, if there is one. *)
Definition last_reached (scrollY innerHeight : float) (rects : list float)
    (k : nat) : Prop :=
  exists r, rects !! k = Some r /\ reached scrollY innerHeight r
    /\ forall j r', (k < j)%nat -> rects !! j = Some r' ->
                    ~ reached scrollY innerHeight r'.

Lemma scan_spec scrollY innerHeight rects : forall i acc,
  (Forall (fun r => ~ reached scrollY innerHeight r) rects
   /\ scan scrollY (line scrollY innerHeight) rects i acc = acc)
  \/ (exists k, last_reached scrollY innerHeight rects k
      /\ scan scrollY (line scrollY innerHeight) rects i acc = Some (i + k)%nat).
Proof.
  induction rects as [|r0 rest IH]; intros i acc; [by left|].
  cbn [scan].
  destruct (IH (S i) (if PrimFloat.leb (PrimFloat.add scrollY r0)
                             (line scrollY innerHeight)
                      then Some i else acc))
    as [[Hall E] | (k & (r & Hk & Hr & Hlast) & E)].
  - destruct (PrimFloat.leb (PrimFloat.add scrollY r0) (line scrollY innerHeight))
      eqn:Hr0.
    + right. exists 0%nat. split.
      * exists r0. split; [reflexivity|]. split; [exact Hr0|].
        intros j r' Hj Hr'. destruct j as [|j]; [lia|]. cbn in Hr'.
        apply (proj1 (Forall_forall _ _) Hall r').
        apply list_elem_of_lookup. by exists j.
      * rewrite E. f_equal. lia.
    + left. split; [|exact E]. constructor; [|exact Hall].
      unfold reached. rewrite Hr0. discriminate.
  - right. exists (S k). split.
    + exists r. split; [exact Hk|]. split; [exact Hr|].
      intros j r' Hj Hr'. destruct j as [|j]; [lia|].
      apply (Hlast j r'); [lia | exact Hr'].
    + rewrite E. f_equal. lia.
Qed.

Lemma last_reached_unique scrollY innerHeight rects k1 k2 :
  last_reached scrollY innerHeight rects k1 ->
  last_reached scrollY innerHeight rects k2 -> k1 = k2.
Proof.
  intros (r1 & H1 & R1 & L1) (r2 & H2 & R2 & L2).
  destruct (Nat.lt_trichotomy k1 k2) as [Hlt | [Heq | Hgt]]; [|exact Heq|].
  - destruct (L1 k2 r2 Hlt H2 R2).
  - destruct (L2 k1 r1 Hgt H1 R1).
Qed.

(** X2: one run of the scroll handler leaves at most one link active: the
    link whose position in the link list is the position, in the section
    list, of the last section for which the code's test
    [scrollY + rect.top <= scrollY + innerHeight * 0.28], on doubles, is
    true; when it is true of no section every link is cleared. *)
Theorem nav_highlight (scrollY innerHeight : float) (rects : list float)
    (links : list bool) :
  let res := highlight scrollY innerHeight rects links in
  length res = length links
  /\ (forall j, res !! j = Some true <->
                (j < length links)%nat /\ last_reached scrollY innerHeight rects j)
  /\ (forall i j, res !! i = Some true -> res !! j = Some true -> i = j)
  /\ (Forall (fun r => ~ reached scrollY innerHeight r) rects ->
      Forall (fun b => b = false) res).
Proof.
  intros res.
  assert (Hlook : forall j, res !! j = Some true <->
            (j < length links)%nat
            /\ scan scrollY (line scrollY innerHeight) rects 0 None = Some j).
  { intros j. unfold res, highlight, mark. rewrite list_lookup_imap.
    destruct (links !! j) as [b|] eqn:Ej; cbn.
    - apply lookup_lt_Some in Ej. split.
      + intros [= Hb]. apply bool_decide_eq_true in Hb. by split.
      + intros [_ ->]. by rewrite bool_decide_eq_true_2.
    - apply lookup_ge_None in Ej. split; [discriminate | intros [Hlt _]; lia]. }
  assert (Hiff : forall j, res !! j = Some true <->
            (j < length links)%nat /\ last_reached scrollY innerHeight rects j).
  { intros j. rewrite Hlook.
    destruct (scan_spec scrollY innerHeight rects 0 None)
      as [[Hall E] | (k & Hk & E)]; rewrite E.
    - split; [intros [_ [=]]|]. intros [_ (r & Hj & Hr & _)]. exfalso.
      apply (proj1 (Forall_forall _ _) Hall r); [|exact Hr].
      apply list_elem_of_lookup. by exists j.
    - cbn. split.
      + intros [Hlt [= <-]]. by split.
      + intros [Hlt Hj]. split; [exact Hlt|]. f_equal.
        by apply (last_reached_unique scrollY innerHeight rects). }
  split; [apply length_imap|]. split; [exact Hiff|]. split.
  - intros i j [_ Hi]%Hiff [_ Hj]%Hiff.
    by apply (last_reached_unique scrollY innerHeight rects).
  - intros Hall. apply Forall_forall. intros b [j Hj]%list_elem_of_lookup.
    destruct b; [|reflexivity]. apply Hiff in Hj as [_ (r & Hr & Hreach & _)].
    exfalso. apply (proj1 (Forall_forall _ _) Hall r); [|exact Hreach].
    apply list_elem_of_lookup. by exists j.
Qed.

(** Three sections at 0, 600 and 1500 pixels of the document, a viewport of
    1000 pixels scrolled by 400: the second link is the active one. *)
Example second_section_active :
  highlight 400 1000 [(-400)%float; 200%float; 1100%float] [true; false; true]
  = [false; true; false].
Proof. vm_compute. reflexivity. Qed.

(** Rounding counts: in a viewport of 100 pixels the line is at
    28.000000000000004, so a section whose top is there is reached. *)
Example rounded_line :
  line 0 100 = 28.000000000000004%float
  /\ highlight 0 100 [28.000000000000004%float] [false] = [true].
Proof. vm_compute. by split. Qed.

(** X3: links that resolve to no section are dropped from the section list
    but not from the link list, so the sections are never more than the
    links, and the listener is registered only when both lists are
    non-empty and reduced motion is off. *)
Theorem nav_sections (targets : list (option nat)) (reduced : bool) :
  (length (sections targets) <= length targets)%nat
  /\ (forall s, s ∈ sections targets <-> Some s ∈ targets)
  /\ (installed targets reduced = true <->
      reduced = false /\ exists s, Some s ∈ targets)
  /\ (Forall (fun t => is_Some t) targets ->
      forall i s, sections targets !! i = Some s <-> targets !! i = Some (Some s)).
Proof.
  unfold sections. split; [|split; [|split]].
  - induction targets as [|[s|] l IH]; cbn; lia.
  - intros s. rewrite list_elem_of_omap. split.
    + intros (x & Hx & E). cbn in E. by subst x.
    + intros H. by exists (Some s).
  - unfold installed, sections. split.
    + intros H. apply andb_true_iff in H as [H Hr].
      apply andb_true_iff in H as [_ Hs].
      split; [by destruct reduced|].
      destruct (omap id targets) as [|s l] eqn:E; [discriminate|].
      exists s. assert (Hin : s ∈ omap id targets) by (rewrite E; by left).
      apply list_elem_of_omap in Hin as (x & Hx & Ex). cbn in Ex. by subst x.
    + intros [-> (s & Hs)].
      assert (Hin : s ∈ omap id targets)
        by (apply list_elem_of_omap; by exists (Some s)).
      destruct targets as [|t l]; [by apply elem_of_nil in Hs|].
      destruct (omap id (t :: l)) as [|s' l'] eqn:E; [by apply elem_of_nil in Hin|].
      reflexivity.
  - intros Hall. induction Hall as [|t l [s0 ->] _ IH]; intros i s.
    + by rewrite !lookup_nil.
    + cbn. destruct i as [|i]; cbn; [|apply IH].
      split; congruence.
Qed.

End NavFacts.

(** ** The mobile menu *)

Module MenuFacts.
Import Menu.

Lemma step_sync e st :
  expanded st = nav_open st -> expanded (step e st) = nav_open (step e st).
Proof.
  intros H. unfold step. destruct (listening st); cbn [negb]; [|exact H].
  destruct e as [| | |esc]; cbn; try exact H; try reflexivity.
  - destruct (nav_open st) eqn:E; cbn; congruence.
  - destruct esc, (nav_open st) eqn:E; cbn; congruence.
Qed.

(** X4: if the header does not carry the class "nav-open" when the toggle
    is created, then whatever the user does the attribute [aria-expanded]
    and the class agree. *)
Theorem menu_in_sync (st : state) (evs : list event) :
  has_header st = true -> has_toggle st = false -> nav_open st = false ->
  let r := run evs (setupMobileMenu st) in
  listening r = true /\ expanded r = nav_open r.
Proof.
  intros Hh Ht Hn.
  assert (H0 : listening (setupMobileMenu st) = true
               /\ expanded (setupMobileMenu st) = nav_open (setupMobileMenu st)).
  { unfold setupMobileMenu. rewrite Hh, Ht. cbn. by rewrite Hn. }
  revert H0. generalize (setupMobileMenu st). clear.
  induction evs as [|e evs IH]; intros s [Hl Hs]; [by split|].
  apply (IH (step e s)). split; [|by apply step_sync].
  unfold step. rewrite Hl. cbn [negb].
  destruct e as [| | |esc]; cbn; try exact Hl; try reflexivity.
  - destruct (nav_open s) eqn:E; cbn; congruence.
  - destruct esc, (nav_open s) eqn:E; cbn; congruence.
Qed.

Lemma menu_in_sync_witness :
  let st := {| has_header := true; has_toggle := false; listening := false;
               expanded := false; nav_open := false; focus_calls := 0 |} in
  nav_open (run [ClickToggle; ClickInside] (setupMobileMenu st)) = true
  /\ expanded (run [ClickToggle; ClickInside; KeyDown true] (setupMobileMenu st))
     = false.
Proof.
  intros st.
  destruct (menu_in_sync st [ClickToggle; ClickInside] eq_refl eq_refl eq_refl)
    as [_ H1].
  destruct (menu_in_sync st [ClickToggle; ClickInside; KeyDown true]
              eq_refl eq_refl eq_refl) as [_ H2].
  split; [rewrite <- H1 | rewrite H2]; reflexivity.
Defined.

(** X5: with the listeners in place, a click outside the header and the
    Escape key always leave the menu closed, a click inside the header
    (the toggle apart) and any other key change nothing, two clicks on the
    toggle of a menu in sync cancel out, and [focus()] is called on the
    toggle exactly when Escape closes an open menu. *)
Theorem menu_closing (st : state) :
  listening st = true ->
  (nav_open (step ClickOutside st) = false
   /\ focus_calls (step ClickOutside st) = focus_calls st)
  /\ (nav_open (step (KeyDown true) st) = false
      /\ focus_calls (step (KeyDown true) st)
         = (if nav_open st then S (focus_calls st) else focus_calls st))
  /\ step ClickInside st = st
  /\ step (KeyDown false) st = st
  /\ (nav_open st = false -> step (KeyDown true) st = st /\ step ClickOutside st = st)
  /\ (expanded st = nav_open st -> step ClickToggle (step ClickToggle st) = st).
Proof.
  intros Hl. unfold step. rewrite Hl. cbn [negb andb].
  split; [|split; [|split; [|split; [|split]]]].
  - destruct (nav_open st) eqn:E; cbn; by rewrite ?E.
  - destruct (nav_open st) eqn:E; cbn; by rewrite ?E.
  - reflexivity.
  - reflexivity.
  - intros ->. by split.
  - intros Hs. cbn. rewrite negb_involutive.
    destruct st as [a b c d e f]. cbn in *. by subst.
Qed.

Lemma menu_closing_witness :
  let st := {| has_header := true; has_toggle := true; listening := true;
               expanded := true; nav_open := true; focus_calls := 0 |} in
  listening st = true
  /\ focus_calls (step (KeyDown true) st) = 1%nat
  /\ step ClickToggle (step ClickToggle st) = st.
Proof.
  intros st. split; [reflexivity|].
  destruct (menu_closing st eq_refl) as (_ & (_ & Hf) & _ & _ & _ & Ht).
  split; [rewrite Hf; reflexivity | by apply Ht].
Defined.


End MenuFacts.

(** ** The rotator's interval *)

Module IntervalFacts.
Import Rotator Interval.

Lemma advance_total s : exists s', advance s = Some s'.
Proof.
  assert (Hne : (0 < length testimonials)%nat) by (cbn; lia).
  destruct (RotatorFacts.item_at testimonials Hne (idx s)) as [r Hr].
  eexists. apply (RotatorFacts.set_in_view testimonials (idx s) s r Hr).
Qed.

Lemma setup_shows_first reduced p :
  exists r, set 0 (rot p) = Some r /\ displays r 0
            /\ rot (setup true reduced p) = r.
Proof.
  assert (Hne : (0 < length testimonials)%nat) by (cbn; lia).
  destruct (RotatorFacts.item_at testimonials Hne 0) as [t Ht].
  pose proof (RotatorFacts.set_in_view testimonials 0 (rot p) t Ht) as E.
  fold (set 0 (rot p)) in E. eexists. split; [exact E|]. split.
  - exists t. split; [exact Ht|]. split; [reflexivity|].
    cbn [RotatorFacts.view has_author author_text]. by intros ->.
  - unfold setup. rewrite E. by destruct reduced.
Qed.

(** What a tick does to everything but the display: nothing. *)
Lemma tick_frame id p :
  timer (step (Tick id) p) = timer p /\ running (step (Tick id) p) = running p
  /\ next_id (step (Tick id) p) = next_id p
  /\ listening (step (Tick id) p) = listening p.
Proof.
  cbn [step]. case_bool_decide; [|by repeat split].
  destruct (advance (rot p)); by repeat split.
Qed.

(** The interval is the one [timer] names, or none is running. *)
Definition tidy (busy : bool) (p : page) : Prop :=
  listening p = true
  /\ exists id, timer p = Some id
                /\ running p = (if busy then {[ id ]} else ∅).

Definition after (busy : bool) (e : event) : bool :=
  if is_pause e then false else if is_resume e then true else busy.

Lemma tidy_step busy e p :
  tidy busy p -> (is_resume e = true -> busy = false) ->
  tidy (after busy e) (step e p).
Proof.
  intros (Hl & id & Ht & Hr) Hres.
  assert (Hp : tidy false (pause p)).
  { unfold pause. rewrite Ht. split; [exact Hl|]. exists id. split; [reflexivity|].
    cbn [running]. rewrite Hr.
    destruct busy; [apply difference_diag_L | apply empty_difference_L]. }
  assert (Hs : busy = false -> tidy true (setInterval p)).
  { intros ->. split; [exact Hl|]. exists (next_id p). split; [reflexivity|].
    cbn [setInterval running]. rewrite Hr. apply union_empty_r_L. }
  destruct e as [| | | |i].
  - unfold after. cbn [is_pause step]. by rewrite Hl.
  - unfold after. cbn [is_pause is_resume step]. rewrite Hl. by apply Hs, Hres.
  - unfold after. cbn [is_pause step]. by rewrite Hl.
  - unfold after. cbn [is_pause is_resume step]. rewrite Hl. by apply Hs, Hres.
  - destruct (tick_frame i p) as (T1 & T2 & _ & T4). unfold after. cbn [is_pause is_resume].
    split; [by rewrite T4|]. exists id. by rewrite T1, T2.
Qed.

Lemma tidy_run evs : forall busy p,
  tidy busy p -> alternating busy evs ->
  exists busy', tidy busy' (run evs p).
Proof.
  induction evs as [|e evs IH]; intros busy p Hp Halt; [by exists busy|].
  change (run (e :: evs) p) with (run evs (step e p)).
  apply (IH (after busy e)).
  - apply tidy_step; [exact Hp|]. intros He. cbn [alternating] in Halt.
    destruct e; cbn in He; try discriminate; cbn in Halt; apply Halt.
  - cbn [alternating] in Halt. unfold after.
    destruct (is_pause e); [exact Halt|]. destruct (is_resume e); [apply Halt | exact Halt].
Qed.



(** Interval ids are handed out in increasing order. *)
Definition fresh (p : page) : Prop :=
  forall i, i ∈ running p -> (i < next_id p)%positive.

Lemma orphan_step e p id :
  fresh p -> id ∈ running p -> timer p <> Some id ->
  fresh (step e p) /\ id ∈ running (step e p) /\ timer (step e p) <> Some id.
Proof.
  intros Hf Hin Hne.
  assert (Hp : fresh (pause p) /\ id ∈ running (pause p) /\ timer (pause p) <> Some id).
  { unfold pause. destruct (timer p) as [t|] eqn:Et;
      [|split; [exact Hf | split; [exact Hin | by rewrite Et]]].
    cbn. split; [|split; [|exact Hne]].
    - intros i [Hi _]%elem_of_difference. by apply Hf.
    - apply elem_of_difference. split; [exact Hin|].
      intros ->%elem_of_singleton. by apply Hne. }
  assert (Hs : fresh (setInterval p) /\ id ∈ running (setInterval p)
               /\ timer (setInterval p) <> Some id).
  { cbn. split; [|split].
    - intros i [->%elem_of_singleton | Hi]%elem_of_union.
      + apply Pos.lt_succ_diag_r.
      + by apply Pos.lt_lt_succ, Hf.
    - by apply elem_of_union_r.
    - intros [= E]. specialize (Hf id Hin). rewrite E in Hf.
      by apply Pos.lt_irrefl in Hf. }
  destruct e as [| | | |i].
  - cbn [step]. destruct (listening p); [exact Hp | by split].
  - cbn [step]. destruct (listening p); [exact Hs | by split].
  - cbn [step]. destruct (listening p); [exact Hp | by split].
  - cbn [step]. destruct (listening p); [exact Hs | by split].
  - destruct (tick_frame i p) as (T1 & T2 & T3 & _).
    unfold fresh. rewrite T1, T2, T3. by split.
Qed.

(** X8: an interval that is running while [timer] names another one is
    never cleared: whatever happens next it keeps running, and each of its
    ticks keeps advancing the rotator.  A mouse-leave followed by a blur
    leaves such an interval behind. *)
Theorem orphan_interval (p : page) (id : positive) (evs : list event) :
  fresh p -> id ∈ running p -> timer p <> Some id ->
  let r := run evs p in
  id ∈ running r /\ timer r <> Some id
  /\ exists s, advance (rot r) = Some s /\ rot (step (Tick id) r) = s.
Proof.
  intros Hf Hin Hne.
  assert (H : fresh (run evs p) /\ id ∈ running (run evs p)
              /\ timer (run evs p) <> Some id).
  { revert p Hf Hin Hne. induction evs as [|e evs IH]; intros p Hf Hin Hne;
      [by repeat split|].
    change (run (e :: evs) p) with (run evs (step e p)).
    destruct (orphan_step e p id Hf Hin Hne) as (H1 & H2 & H3). by apply IH. }
  destruct H as (_ & H2 & H3). cbv zeta. split; [exact H2|]. split; [exact H3|].
  destruct (advance_total (rot (run evs p))) as [s Hs]. exists s.
  split; [exact Hs|]. cbn [step]. rewrite bool_decide_eq_true_2 by exact H2.
  by rewrite Hs.
Qed.

Lemma orphan_interval_witness :
  let p := run [MouseLeave; Blur] (setup true false (blank true)) in
  size (running p) = 3%nat
  /\ 2%positive ∈ running (run [MouseEnter; Focus; MouseEnter] p).
Proof.
  intros p. split; [vm_compute; reflexivity|].
  apply (orphan_interval p 2%positive [MouseEnter; Focus; MouseEnter]).
  - intros i Hi. vm_compute in Hi.
    destruct i as [[i|i|]|[i|i|]|]; try discriminate; vm_compute; reflexivity.
  - vm_compute. reflexivity.
  - vm_compute. discriminate.
Defined.

(** X9: under reduced motion the first testimonial is shown, no interval
    is started and no listener is added: no event changes the page. *)
Theorem reduced_motion_static (p : page) (evs : list event) :
  running p = ∅ ->
  let q := setup true true p in
  displays (rot q) 0 /\ running q = ∅ /\ run evs q = q.
Proof.
  intros Hr q.
  destruct (setup_shows_first true p) as (r0 & E & Hd & Hrot).
  assert (Eq : q = {| rot := r0; timer := None; running := running p;
                      next_id := next_id p; listening := false |}).
  { unfold q, setup. by rewrite E. }
  split; [by rewrite Eq|]. split; [by rewrite Eq|].
  assert (Hstep : forall e, step e q = q).
  { intros e. rewrite Eq. destruct e; cbn [step listening]; try reflexivity.
    cbn [running]. rewrite Hr.
    by rewrite bool_decide_eq_false_2 by apply not_elem_of_empty. }
  induction evs as [|e evs IH]; [reflexivity|].
  change (run (e :: evs) q) with (run evs (step e q)). by rewrite Hstep.
Qed.

Lemma reduced_motion_static_witness :
  running (blank false) = ∅
  /\ run [Tick 1; MouseLeave; Tick 1; Blur] (setup true true (blank false))
     = setup true true (blank false).
Proof.
  split; [reflexivity|].
  apply (reduced_motion_static (blank false) [Tick 1; MouseLeave; Tick 1; Blur] eq_refl).
Defined.

(** X10: a pause stops the rotation: from a page with its one interval
    running, after a mouse-enter or a focus no tick changes the display
    until a mouse-leave or a blur. *)
Theorem pause_holds (p : page) (id : positive) (e : event) (evs : list event) :
  listening p = true -> timer p = Some id -> running p = {[ id ]} ->
  is_pause e = true ->
  Forall (fun x => is_resume x = false) evs ->
  rot (run evs (step e p)) = rot p /\ running (run evs (step e p)) = ∅.
Proof.
  intros Hl Ht Hr He Hall.
  assert (H0 : rot (step e p) = rot p /\ running (step e p) = ∅
               /\ listening (step e p) = true).
  { destruct e; try discriminate; cbn [step]; rewrite Hl; unfold pause;
      rewrite Ht; cbn; rewrite Hr; (split; [reflexivity|]);
      (split; [apply difference_diag_L | exact Hl]). }
  destruct H0 as (E1 & E2 & E3). rewrite <- E1.
  revert E2 E3. generalize (step e p). clear - Hall.
  induction Hall as [|x evs Hx _ IH]; intros q E2 E3; [by split|].
  change (run (x :: evs) q) with (run evs (step x q)).
  assert (Hq : step x q = pause q \/ step x q = q).
  { destruct x; try discriminate; cbn [step]; rewrite ?E3; try (by left).
    right. rewrite E2. by rewrite bool_decide_eq_false_2 by apply not_elem_of_empty. }
  assert (Hs : rot (step x q) = rot q /\ running (step x q) = ∅
               /\ listening (step x q) = true).
  { destruct Hq as [-> | ->]; [|by repeat split].
    unfold pause. destruct (timer q); cbn; rewrite ?E2; repeat split;
      try assumption; apply empty_difference_L. }
  destruct Hs as (S1 & S2 & S3). rewrite <- S1. by apply IH.
Qed.

Lemma pause_holds_witness :
  rot (run [Focus; Tick 1; Tick 1] (setup true false (blank true)))
  = rot (setup true false (blank true)).
Proof.
  change (run [Focus; Tick 1; Tick 1] (setup true false (blank true)))
    with (run [Tick 1; Tick 1] (step Focus (setup true false (blank true)))).
  apply (pause_holds (setup true false (blank true)) 1%positive Focus
           [Tick 1; Tick 1]); try reflexivity.
  by repeat constructor.
Defined.

End IntervalFacts.

(** ** The rotator's period *)

Module PeriodFacts.
Import Rotator RotatorFacts.

Local Open Scope nat_scope.

Lemma mod3_cancel a m : a < 3 -> (a + m) mod 3 = a -> m mod 3 = 0.
Proof.
  intros Ha H. rewrite <- Nat.Div0.add_mod_idemp_r in H.
  assert (Hb : m mod 3 < 3) by (apply Nat.mod_upper_bound; lia).
  destruct (m mod 3) as [|[|[|b]]]; [reflexivity| | |lia];
    destruct a as [|[|[|a]]]; cbn in H; try discriminate; lia.
Qed.

(** X11: the rotator's period is exactly the length of the list: after
    [k] ticks it is back in the state [set] left it in if and only if [k]
    is a multiple of three. *)
Theorem rotator_period (i k : nat) (st : state) :
  exists st0, set i st = Some st0
    /\ (advance_n k st0 = Some st0 <-> k mod length testimonials = 0).
Proof.
  assert (Hne : 0 < length testimonials) by (cbn; lia).
  assert (H3 : length testimonials = 3) by reflexivity.
  destruct (item_at testimonials Hne i) as [r Hr].
  assert (Hset : set i st = Some (view r ((i + 1) mod length testimonials) st))
    by (by apply set_in_view).
  rewrite H3 in *.
  remember ((i + 1) mod 3) as a eqn:Ea.
  assert (Ha : a < 3) by (subst a; apply Nat.mod_upper_bound; lia).
  exists (view r a st). split; [exact Hset|].
  destruct k as [|n]; [by split|].
  destruct (item_at testimonials Hne (idx (view r a st) + n)) as [r' Hr'].
  unfold advance_n. rewrite (advance_n_view testimonials Hne n _ r' Hr').
  rewrite view_view. cbn [view idx] in *. rewrite H3 in *.
  split.
  - intros E. assert (Hidx : (a + n + 1) mod 3 = a).
    { apply (f_equal (fun o => match o with Some s => idx s | None => 0 end)) in E.
      exact E. }
    apply (mod3_cancel a); [exact Ha|].
    rewrite <- Hidx at 2. f_equal. lia.
  - intros Hk.
    assert (E1 : (a + n + 1) mod 3 = a).
    { replace (a + n + 1) with (a + S n) by lia.
      rewrite <- Nat.Div0.add_mod_idemp_r, Hk, Nat.add_0_r.
      by apply Nat.mod_small. }
    assert (E2 : (a + n) mod 3 = i mod 3).
    { subst a. rewrite Nat.Div0.add_mod_idemp_l.
      replace (i + 1 + n) with (i + S n) by lia.
      by rewrite <- Nat.Div0.add_mod_idemp_r, Hk, Nat.add_0_r. }
    rewrite E1. rewrite E2 in Hr'. congruence.
Qed.

End PeriodFacts.

(** ** Batches of intersection entries *)

Module BatchFacts.
Import Reveal.

(** The targets of the intersecting entries of a batch. *)
Definition hits (entries : list entry) : gset nat :=
  list_to_set (target <$> List.filter isIntersecting entries).

Lemma hits_cons e entries :
  hits (e :: entries)
  = if isIntersecting e then {[ target e ]} ∪ hits entries else hits entries.
Proof. unfold hits. cbn [List.filter]. by destruct (isIntersecting e). Qed.

Lemma callback_closed entries : forall st,
  callback entries st
  = {| active := hits entries ∪ active st; observed := observed st ∖ hits entries |}.
Proof.
  induction entries as [|e entries IH]; intros st.
  - destruct st as [a o]. unfold callback, hits. cbn. f_equal.
    + by rewrite union_empty_l_L.
    + by rewrite difference_empty_L.
  - change (callback (e :: entries) st) with (callback entries (on_entry st e)).
    rewrite IH, hits_cons. unfold on_entry.
    destruct (isIntersecting e); [|reflexivity]. cbn [active observed]. f_equal.
    + apply leibniz_equiv. intros x. rewrite !elem_of_union. tauto.
    + apply leibniz_equiv. intros x. rewrite !elem_of_difference, elem_of_union. tauto.
Qed.

Lemma hits_perm l1 l2 : l1 ≡ₚ l2 -> hits l1 = hits l2.
Proof.
  intros Hp. apply leibniz_equiv. intros x. unfold hits.
  rewrite !elem_of_list_to_set, !list_elem_of_fmap.
  split; intros (e & -> & He); exists e; (split; [reflexivity|]);
    apply list_elem_of_In, filter_In; apply list_elem_of_In, filter_In in He;
    destruct He as [He Hi]; (split; [|exact Hi]);
    apply list_elem_of_In; apply list_elem_of_In in He.
  - by rewrite <- Hp.
  - by rewrite Hp.
Qed.

(** X12: the effect of a batch of entries only depends on which targets
    intersect: they are added to the active elements and removed from the
    observed ones.  So the order of the entries does not matter, a batch
    seen twice acts once, and the callback never removes the class or
    starts an observation. *)
Theorem reveal_batch (entries : list entry) (st : state) :
  callback entries st
  = {| active := hits entries ∪ active st; observed := observed st ∖ hits entries |}
  /\ (forall entries', entries ≡ₚ entries' -> callback entries' st = callback entries st)
  /\ callback entries (callback entries st) = callback entries st
  /\ active st ⊆ active (callback entries st)
  /\ observed (callback entries st) ⊆ observed st.
Proof.
  split; [apply callback_closed|]. split; [|split; [|split]].
  - intros entries' Hp. rewrite !callback_closed. by rewrite (hits_perm _ _ Hp).
  - rewrite !callback_closed. cbn [active observed]. f_equal.
    + apply leibniz_equiv. intros x. rewrite !elem_of_union. tauto.
    + apply leibniz_equiv. intros x. rewrite !elem_of_difference. tauto.
  - rewrite callback_closed. cbn [active]. intros x Hx. by apply elem_of_union_r.
  - rewrite callback_closed. cbn [observed]. intros x Hx.
    by apply elem_of_difference in Hx as [Hx _].
Qed.

(** The state after a series of batches. *)
Definition batches (bs : list (list entry)) (st : state) : state :=
  foldl (fun s b => callback b s) st bs.

Lemma batches_cover bs : forall st n,
  n ∈ active st \/ n ∈ observed st ->
  n ∈ active (batches bs st) \/ n ∈ observed (batches bs st).
Proof.
  induction bs as [|b bs IH]; intros st n H; [exact H|].
  change (batches (b :: bs) st) with (batches bs (callback b st)).
  apply IH. rewrite callback_closed. cbn [active observed].
  rewrite elem_of_union, elem_of_difference.
  destruct (decide (n ∈ hits b)); tauto.
Qed.

(** X13: [setupScrollReveal] loses no element: under reduced motion, or when
    the selector matches nothing, every matched element is made active at
    once and nothing is observed; otherwise every matched element is
    observed, and after any series of observer callbacks each of them is
    either active or still observed. *)
Theorem reveal_covers (reduced : bool) (nodes : list nat) (st : state)
    (bs : list (list entry)) :
  let st0 := setupScrollReveal reduced nodes st in
  (reduced = true \/ nodes = [] ->
     (forall n, n ∈ nodes -> n ∈ active st0) /\ observed st0 = observed st)
  /\ (reduced = false -> nodes <> [] ->
     (forall n, n ∈ nodes -> n ∈ observed st0) /\ active st0 = active st)
  /\ (forall n, n ∈ nodes ->
        n ∈ active (batches bs st0) \/ n ∈ observed (batches bs st0)).
Proof.
  intros st0.
  assert (H1 : reduced = true \/ nodes = [] ->
     (forall n, n ∈ nodes -> n ∈ active st0) /\ observed st0 = observed st).
  { intros H. unfold st0, setupScrollReveal.
    assert (E : (length nodes =? 0)%nat || reduced = true).
    { destruct H as [-> | ->]; [apply orb_true_r | reflexivity]. }
    rewrite E. cbn [active observed]. split; [|reflexivity].
    intros n Hn. by apply elem_of_union_l, elem_of_list_to_set. }
  assert (H2 : reduced = false -> nodes <> [] ->
     (forall n, n ∈ nodes -> n ∈ observed st0) /\ active st0 = active st).
  { intros -> Hne. unfold st0, setupScrollReveal.
    destruct nodes as [|x l]; [congruence|]. cbn [length Nat.eqb orb active observed].
    split; [|reflexivity]. intros n Hn. by apply elem_of_union_l, elem_of_list_to_set. }
  split; [exact H1|]. split; [exact H2|].
  intros n Hn. apply batches_cover.
  destruct reduced eqn:Er.
  - left. apply H1; [by left | exact Hn].
  - destruct nodes as [|x l] eqn:El; [by apply elem_of_nil in Hn|].
    right. apply H2; [reflexivity | discriminate | exact Hn].
Qed.

End BatchFacts.

(** ** More on the throttled function *)

Module ThrottleMore.
Import Throttle ThrottleFacts.

Section More.
Context {A : Type}.
Implicit Types (s : state A) (evs : list (event A)).

(** Events that are visits of the event loop only. *)
Definition only_loops evs : Prop :=
  Forall (fun e => match e with Loop _ => True | Call _ _ => False end) evs.

Lemma idle_loops wait evs : forall s,
  timer s = None -> only_loops evs -> run wait evs s = (s, []).
Proof.
  induction evs as [|e evs IH]; intros s Hs Hall; [reflexivity|].
  inversion Hall as [|? ? He Hall']; subst. destruct e as [|t]; [destruct He|].
  rewrite trace_cons. cbn [step]. unfold fire. rewrite Hs. cbn [fst snd].
  by rewrite (IH s Hs Hall').
Qed.

(** X14: no call is lost silently at the moment it is made: a call either
    applies [fn] at once, or leaves a timer pending that is due when the
    window ends, later than the call; that timer applies [fn] at the first
    visit of the event loop at or after its deadline. *)
Theorem call_is_served wait t (args : A) s :
  timer_ok wait s ->
  let s' := fst (call wait t args s) in
  timer_ok wait s'
  /\ ((snd (call wait t args s) = Some args /\ timer s' = None /\ last s' = t)
      \/ (snd (call wait t args s) = None
          /\ exists pending, timer s' = Some (last s + wait, pending)
               /\ t < last s + wait /\ last s' = last s
               /\ forall t', last s + wait <= t' ->
                    fire t' s' = ({| last := t'; timer := None |}, Some pending))).
Proof.
  intros Hok s'.
  assert (Hstep := step_spaced wait (Call t args) s Hok).
  destruct Hstep as [Hok' _].
  assert (E : fst (step wait (Call t args) s) = s').
  { cbn [step]. unfold s'. by destruct (call wait t args s). }
  rewrite E in Hok'. split; [exact Hok'|].
  unfold s', call. destruct (Z.leb_spec (wait - (t - last s)) 0) as [Hle|Hgt].
  - left. by repeat split.
  - right. destruct (timer s) as [[d a]|] eqn:Et; cbn [fst snd].
    + split; [reflexivity|]. exists a. rewrite Et, (Hok d a Et).
      split; [reflexivity|]. split; [lia|]. split; [reflexivity|].
      intros t' Ht'. unfold fire. rewrite Et, (Hok d a Et).
      by destruct (Z.leb_spec (last s + wait) t'); [|lia].
    + split; [reflexivity|]. exists args. cbn [timer last].
      replace (t + (wait - (t - last s))) with (last s + wait) by lia.
      split; [reflexivity|]. split; [lia|]. split; [reflexivity|].
      intros t' Ht'. unfold fire. cbn [timer].
      by destruct (Z.leb_spec (last s + wait) t'); [|lia].
Qed.


(** The clock does not run backwards from [t0] on. *)
Fixpoint nondecreasing (t0 : Z) (ts : list Z) : Prop :=
  match ts with
  | [] => True
  | t :: rest => t0 <= t /\ nondecreasing t rest
  end.

(** X15: with a non-positive [wait] nothing is ever deferred: as long as
    the clock does not run backwards every call applies [fn] at once with
    its own arguments and no timer is ever armed. *)
Theorem no_wait_no_delay wait (calls : list (Z * A)) s :
  wait <= 0 ->
  timer s = None ->
  nondecreasing (last s) (List.map fst calls) ->
  snd (run wait (List.map (fun c => Call (fst c) (snd c)) calls) s)
  = List.map (fun c => Exec (fst c) Leading (snd c)) calls
  /\ timer (fst (run wait (List.map (fun c => Call (fst c) (snd c)) calls) s)) = None.
Proof.
  intros Hw. revert s. induction calls as [|[t a] calls IH]; intros s Hs Hsorted;
    [by split|].
  cbn [List.map fst snd nondecreasing] in *. rewrite trace_cons.
  destruct Hsorted as [Ht Hrest].
  assert (E : step wait (Call t a) s
              = ({| last := t; timer := None |}, [Exec t Leading a])).
  { cbn [step]. unfold call.
    by destruct (Z.leb_spec (wait - (t - last s)) 0); [|lia]. }
  rewrite E. cbn [fst snd app].
  destruct (IH {| last := t; timer := None |} eq_refl Hrest) as [I1 I2].
  rewrite I1, I2. by split.
Qed.


(** X16: a call that finds the window elapsed while a timer is still
    pending (the event loop is late) applies [fn] with its own arguments
    and cancels the timer: the arguments the timer had captured are never
    applied, whatever the event loop does afterwards. *)
Theorem late_timer_dropped wait t (args old : A) d s evs :
  timer s = Some (d, old) ->
  last s + wait <= t ->
  only_loops evs ->
  run wait (Call t args :: evs) s
  = ({| last := t; timer := None |}, [Exec t Leading args]).
Proof.
  intros Ht Hle Hall. rewrite trace_cons.
  assert (E : step wait (Call t args) s
              = ({| last := t; timer := None |}, [Exec t Leading args])).
  { cbn [step]. unfold call.
    by destruct (Z.leb_spec (wait - (t - last s)) 0); [|lia]. }
  rewrite E. cbn [fst snd].
  by rewrite (idle_loops wait evs {| last := t; timer := None |} eq_refl Hall).
Qed.

End More.

Lemma call_is_served_witness :
  snd (call 100 1010 2 (fst (call 100 1000 1 init))) = None
  /\ fire 1100 (fst (call 100 1010 2 (fst (call 100 1000 1 init))))
     = ({| last := 1100; timer := None |}, Some 2).
Proof.
  assert (Hok : timer_ok 100 (fst (call 100 1000 1 (@init Z)))).
  { intros d a H. vm_compute in H. discriminate. }
  destruct (call_is_served 100 1010 2 _ Hok) as [_ [[H _] | (H & p & Hp & _ & _ & Hf)]].
  - vm_compute in H. discriminate.
  - split; [exact H|]. vm_compute in Hp. injection Hp as <-.
    apply (Hf 1100). vm_compute. discriminate.
Defined.

Lemma no_wait_no_delay_witness :
  snd (run 0 [Call 5 1; Call 5 2; Call 9 3] init)
  = [Exec 5 Leading 1; Exec 5 Leading 2; Exec 9 Leading 3].
Proof.
  apply (no_wait_no_delay 0 [(5, 1); (5, 2); (9, 3)] init);
    [vm_compute; discriminate | reflexivity|].
  cbn. repeat split; vm_compute; discriminate.
Defined.

Lemma late_timer_dropped_witness :
  run 100 [Call 1150 3; Loop 1160; Loop 1300]
    (fst (run 100 [Call 1000 1; Call 1010 2] init))
  = ({| last := 1150; timer := None |}, [Exec 1150 Leading 3]).
Proof.
  apply (late_timer_dropped 100 1150 3 2 1100).
  - reflexivity.
  - vm_compute. discriminate.
  - by repeat constructor.
Defined.

End ThrottleMore.

(** ** More on the modal *)

Module ModalMore.
Import JS CTA JSFacts FormFacts ModalFacts.

(** What one step does to the open flag and to the scroll lock: nothing,
    or what [openModal] does, or what [closeModal] does. *)
Lemma step_lock key e p :
  (modal_open (step key e p) = modal_open p
   /\ body_overflow (step key e p) = body_overflow p)
  \/ (modal_open (step key e p) = true /\ body_overflow (step key e p) = js "hidden")
  \/ (modal_open (step key e p) = false /\ body_overflow (step key e p) = []).
Proof.
  assert (Hsa : forall q, modal_open q = modal_open p -> body_overflow q = body_overflow p ->
            (modal_open (showAfter key q) = modal_open p
             /\ body_overflow (showAfter key q) = body_overflow p)
            \/ (modal_open (showAfter key q) = true
                /\ body_overflow (showAfter key q) = js "hidden")
            \/ (modal_open (showAfter key q) = false
                /\ body_overflow (showAfter key q) = [])).
  { intros q H1 H2. unfold showAfter. destruct (shown q || joined key q);
      [by left | right; left; by split]. }
  assert (Hsh : forall q, modal_open q = modal_open p -> body_overflow q = body_overflow p ->
            (modal_open (scrollHandler key q) = modal_open p
             /\ body_overflow (scrollHandler key q) = body_overflow p)
            \/ (modal_open (scrollHandler key q) = true
                /\ body_overflow (scrollHandler key q) = js "hidden")
            \/ (modal_open (scrollHandler key q) = false
                /\ body_overflow (scrollHandler key q) = [])).
  { intros q H1 H2. unfold scrollHandler. destruct (past_threshold q);
      [by apply Hsa | by left]. }
  destruct e; cbn [step]; modal_simpl.
  - by left.
  - destruct (wired p); [|by left]. unfold on_scroll. modal_simpl.
    destruct (Throttle.call 250 (clock p) () (scroll_throttle p)) as [th [u|]];
      [by apply Hsh | by left].
  - destruct (wired p); [|by left]. unfold on_scroll.
    destruct (Throttle.call 250 (clock p) () (scroll_throttle p)) as [th [u|]];
      [by apply Hsh | by left].
  - by left.
  - destruct (wired p); [|by left]. unfold on_show_timer.
    destruct (timed p) as [d|]; [|by left].
    destruct (d <=? clock p); [by apply Hsa | by left].
  - destruct (wired p); [|by left]. unfold on_throttle_timer.
    destruct (Throttle.fire (clock p) (scroll_throttle p)) as [th [u|]];
      [by apply Hsh | by left].
  - destruct (wired p); [|by left]. unfold on_timeout.
    destruct (timeouts p !! i) as [[d a]|]; [|by left].
    destruct (d <=? clock p); [|by left].
    destruct a; modal_simpl; [by left | right; right; by split].
  - destruct (wired p); [|by left]. unfold on_submit.
    destruct (0 <? length (validateForm (payload_of fd)))%nat; by left.
  - destruct (wired p); [right; right; by split | by left].
  - destruct (wired p); [right; right; by split | by left].
  - destruct (wired p); [right; right; by split | by left].
  - destruct (wired p && modal_open p); [right; right; by split | by left].
  - by left.
  - by left.
Qed.

Lemma step_unwired_lock key e p :
  wired p = false -> body_overflow (step key e p) = body_overflow p.
Proof.
  intros Hw. destruct e; cbn [step]; modal_simpl; rewrite ?Hw; reflexivity.
Qed.

(** X17: the script locks the scrolling of the page while its modal is
    open.  When it has constructed the modal, the body's inline
    overflow is "hidden" whenever the modal is open, and when the modal is
    closed it is empty or still what the markup had; on a page whose body
    has no inline overflow it is "hidden" when the modal is open and empty
    when it is not.  When the script constructs nothing it never touches
    the overflow. *)
Theorem scroll_lock key storage t y h (markup : Markup) (evs : list event) :
  let p := page_load storage t y h markup in
  let r := run key evs (setupCTAModal key p) in
  (wired r = false ->
     body_overflow r = overflow markup /\ modal_open r = modal_open p)
  /\ (wired r = true ->
      (modal_open r = true -> body_overflow r = js "hidden")
      /\ (modal_open r = false ->
          body_overflow r = [] \/ body_overflow r = overflow markup)
      /\ (overflow markup = [] ->
          body_overflow r = (if modal_open r then js "hidden" else []))).
Proof.
  intros p r.
  pose (Inv := fun x : Page =>
    (wired x = false ->
       body_overflow x = overflow markup /\ modal_open x = modal_open p)
    /\ (wired x = true ->
        (modal_open x = true -> body_overflow x = js "hidden")
        /\ (modal_open x = false ->
            body_overflow x = [] \/ body_overflow x = overflow markup))).
  assert (H0 : Inv (setupCTAModal key p)).
  { unfold Inv, setupCTAModal. destruct (joined key p); [by split|].
    destruct (has_modal p) eqn:Hm; [by split|]. cbn. split; [discriminate|].
    intros _. split; [discriminate | by right]. }
  assert (Hstep : forall e x, Inv x -> Inv (step key e x)).
  { intros e x [I1 I2]. destruct (wired x) eqn:Hw.
    - destruct (step_effect key e x Hw) as [Hw' _].
      destruct (I2 eq_refl) as [J1 J2].
      split; [rewrite Hw'; discriminate|]. intros _.
      destruct (step_lock key e x) as [[E1 E2] | [[E1 E2] | [E1 E2]]];
        rewrite E1, E2.
      + by split.
      + split; [reflexivity | discriminate].
      + split; [discriminate | by left].
    - destruct (step_unwired key e x Hw) as (Hw' & _ & Hm & _).
      split; [|rewrite Hw'; discriminate]. intros _.
      rewrite (step_unwired_lock key e x Hw), Hm. by apply I1. }
  assert (Hr : Inv r).
  { unfold r. revert H0. generalize (setupCTAModal key p).
    induction evs as [|e evs IH]; intros x Hx; [exact Hx|].
    rewrite run_cons. by apply IH, Hstep. }
  destruct Hr as [R1 R2]. split; [exact R1|]. intros Hw.
  destruct (R2 Hw) as [J1 J2]. split; [exact J1|]. split; [exact J2|].
  intros Ho. destruct (modal_open r) eqn:Em; [by apply J1|].
  destruct (J2 eq_refl) as [E|E]; rewrite E; [reflexivity | exact Ho].
Qed.

(** Events of the page itself, not of another browsing context. *)
Definition local (e : event) : Prop :=
  match e with StorageSet _ _ | StorageRemove _ => False | _ => True end.

(** No write callback is waiting. *)
Definition no_write (p : Page) : Prop :=
  Forall (fun x => snd x = CloseAfterWelcome) (timeouts p).

(** Every submission of the trace fails validation. *)
Definition all_rejected (evs : list event) : Prop :=
  Forall (fun e => match e with
                   | Submit fd => validateForm (payload_of fd) <> []
                   | _ => True
                   end) evs.

Lemma storage_showAfter key q : localStorage (showAfter key q) = localStorage q.
Proof. unfold showAfter. by destruct (shown q || joined key q). Qed.

Lemma storage_scrollHandler key q : localStorage (scrollHandler key q) = localStorage q.
Proof.
  unfold scrollHandler. destruct (past_threshold q); [|reflexivity].
  by rewrite storage_showAfter.
Qed.

Lemma timeouts_showAfter key q : timeouts (showAfter key q) = timeouts q.
Proof. unfold showAfter. by destruct (shown q || joined key q). Qed.

Lemma timeouts_scrollHandler key q : timeouts (scrollHandler key q) = timeouts q.
Proof.
  unfold scrollHandler. destruct (past_threshold q); [|reflexivity].
  by rewrite timeouts_showAfter.
Qed.

(** A local step writes at most the entry of the key, and only by running
    a write callback. *)
Lemma storage_step key e p :
  local e ->
  (localStorage (step key e p) = localStorage p
   /\ (timeouts (step key e p) = timeouts p
       \/ (exists i, timeouts (step key e p) = delete i (timeouts p))
       \/ (exists fd, e = Submit fd /\ validateForm (payload_of fd) = []
             /\ exists x, timeouts (step key e p) = timeouts p ++ [x])))
  \/ (exists i d nm v, timeouts p !! i = Some (d, WriteRecord nm)
        /\ localStorage (step key e p) = <[key := v]> (localStorage p)).
Proof.
  intros Hloc. destruct e; cbn [step local] in *; modal_simpl; try (destruct Hloc; fail).
  - left. split; [reflexivity | by left].
  - left. destruct (wired p); [|split; [reflexivity | by left]].
    unfold on_scroll. modal_simpl.
    destruct (Throttle.call 250 (clock p) () (scroll_throttle p)) as [th [u|]].
    + rewrite storage_scrollHandler, timeouts_scrollHandler. split; [reflexivity | by left].
    + split; [reflexivity | by left].
  - left. destruct (wired p); [|split; [reflexivity | by left]].
    unfold on_scroll.
    destruct (Throttle.call 250 (clock p) () (scroll_throttle p)) as [th [u|]].
    + rewrite storage_scrollHandler, timeouts_scrollHandler. split; [reflexivity | by left].
    + split; [reflexivity | by left].
  - left. split; [reflexivity | by left].
  - left. destruct (wired p); [|split; [reflexivity | by left]].
    unfold on_show_timer. destruct (timed p) as [d|]; [|split; [reflexivity | by left]].
    destruct (d <=? clock p); [|split; [reflexivity | by left]].
    rewrite storage_showAfter, timeouts_showAfter. split; [reflexivity | by left].
  - left. destruct (wired p); [|split; [reflexivity | by left]].
    unfold on_throttle_timer.
    destruct (Throttle.fire (clock p) (scroll_throttle p)) as [th [u|]].
    + rewrite storage_scrollHandler, timeouts_scrollHandler. split; [reflexivity | by left].
    + split; [reflexivity | by left].
  - destruct (wired p); [|left; split; [reflexivity | by left]].
    unfold on_timeout. destruct (timeouts p !! i) as [[d a]|] eqn:Ei;
      [|left; split; [reflexivity | by left]].
    destruct (d <=? clock p); [|left; split; [reflexivity | by left]].
    destruct a as [nm|]; modal_simpl.
    + right. exists i, d, nm. eexists. split; [exact Ei|]. reflexivity.
    + left. split; [reflexivity|]. right. left. by exists i.
  - left. destruct (wired p); [|split; [reflexivity | by left]].
    unfold on_submit.
    destruct (validateForm (payload_of fd)) as [|m l] eqn:Ev; cbn; modal_simpl.
    + split; [reflexivity|]. right. right. exists fd. split; [reflexivity|].
      split; [exact Ev|]. by eexists.
    + split; [reflexivity | by left].
  - left. destruct (wired p); split; try reflexivity; by left.
  - left. destruct (wired p); split; try reflexivity; by left.
  - left. destruct (wired p); split; try reflexivity; by left.
  - left. destruct (wired p && modal_open p); split; try reflexivity; by left.
Qed.

Lemma Forall_delete_queue (P : Z * action -> Prop) i l :
  Forall P l -> Forall P (delete i l).
Proof.
  intros H. revert i. induction H as [|x l Hx Hl IH]; intros i; [by destruct i|].
  destruct i as [|i]; cbn; [exact Hl | constructor; [exact Hx | apply IH]].
Qed.

(** X18: the page writes nothing but its own entry of the storage, and
    writes that one only for a submission that passed validation: along
    local events every other entry keeps its value, and when no write is
    waiting and every submission is rejected the storage does not change
    at all. *)
Theorem storage_guarded key p (evs : list event) :
  Forall local evs ->
  (forall k, k <> key -> localStorage (run key evs p) !! k = localStorage p !! k)
  /\ (no_write p -> all_rejected evs ->
      localStorage (run key evs p) = localStorage p).
Proof.
  intros Hloc. split.
  - intros k Hk. revert p. induction Hloc as [|e evs He _ IH]; intros p; [reflexivity|].
    rewrite run_cons, IH.
    destruct (storage_step key e p He) as [[E _] | (i & d & nm & v & _ & E)];
      rewrite E; [reflexivity|]. by rewrite lookup_insert_ne.
  - revert p. induction Hloc as [|e evs He _ IH]; intros p Hnw Hrej; [reflexivity|].
    inversion Hrej as [|? ? Hr Hrej']; subst. rewrite run_cons.
    destruct (storage_step key e p He) as [[E Hq] | (i & d & nm & v & Hi & _)].
    + rewrite IH; [exact E | | exact Hrej'].
      unfold no_write in *. destruct Hq as [-> | [[i ->] | (fd & -> & Hv & _)]].
      * exact Hnw.
      * by apply Forall_delete_queue.
      * destruct (Hr Hv).
    + exfalso.
      assert (Hin : (d, WriteRecord nm) ∈ timeouts p)
        by (apply list_elem_of_lookup; by exists i).
      apply (proj1 (Forall_forall _ _) Hnw) in Hin. discriminate.
Qed.

Lemma storage_guarded_witness :
  localStorage
    (run default_key
       [Elapse 7000; ShowTimer; Submit (entries "A" "15" ""); Elapse 9000;
        Timeout 0; ClickLater] constructed)
  = localStorage constructed.
Proof.
  assert (Hloc : Forall local
            [Elapse 7000; ShowTimer; Submit (entries "A" "15" ""); Elapse 9000;
             Timeout 0; ClickLater]) by (repeat constructor).
  destruct (storage_guarded default_key constructed _ Hloc) as [_ H].
  apply H.
  - constructor.
  - repeat constructor. vm_compute. discriminate.
Defined.

(** X19: once the write callback has run, the record is in the storage, and
    a later page load that finds this storage constructs nothing and never
    opens a modal, whatever the timers and the user do (an element that the
    markup brought keeps its class list: closed unless the markup itself
    marks it open). *)
Theorem joined_for_good key p i d nm t y h (markup : Markup) (evs : list event) :
  wired p = true -> timeouts p !! i = Some (d, WriteRecord nm) -> d <= clock p ->
  let p' := step key (Timeout i) p in
  let q := page_load (localStorage p') t y h markup in
  joined key p' = true
  /\ setupCTAModal key q = q
  /\ opens (run key evs (setupCTAModal key q)) = 0%nat
  /\ modal_open (run key evs (setupCTAModal key q)) = modal_open q
  /\ (with_modal markup = false \/ marked_open markup = false ->
      modal_open (run key evs (setupCTAModal key q)) = false).
Proof.
  intros Hw Hi Hd p' q.
  assert (Hj : joined key p' = true).
  { unfold p'. cbn [step]. rewrite Hw. unfold on_timeout. rewrite Hi.
    destruct (Z.leb_spec d (clock p)); [|lia].
    unfold joined. modal_simpl. by rewrite lookup_insert_eq. }
  assert (E : setupCTAModal key q = q).
  { unfold setupCTAModal. replace (joined key q) with (joined key p'); by rewrite ?Hj. }
  split; [exact Hj|]. split; [exact E|]. rewrite E.
  destruct (run_unwired key evs q eq_refl) as (_ & H2 & H3 & _).
  rewrite H2, H3. split; [reflexivity|]. split; [reflexivity|].
  intros [Hm | Hm]; cbn; rewrite Hm; [reflexivity | apply andb_false_r].
Qed.

Lemma joined_for_good_witness :
  let p := run default_key [Submit (entries "Asha" "15" ""); Elapse 1900] constructed in
  timeouts p !! 0%nat = Some (1900, WriteRecord (Some (js "Asha")))
  /\ opens (run default_key [Elapse 99000; ShowTimer; ScrollTo 900%float]
              (setupCTAModal default_key
                 (page_load (localStorage (step default_key (Timeout 0) p))
                    50000 0%float 800%float plain))) = 0%nat.
Proof.
  intros p. split; [reflexivity|].
  destruct (joined_for_good default_key p 0 1900 (Some (js "Asha")) 50000 0 800
              plain [Elapse 99000; ShowTimer; ScrollTo 900%float]
              eq_refl eq_refl ltac:(vm_compute; discriminate))
    as (_ & _ & H & _).
  exact H.
Defined.

(** X20: the first scroll event after the modal was constructed is never
    throttled (the clock counts milliseconds since 1970), so on a page for
    which the code's test [scrollY > innerHeight * 0.45], on doubles, is
    true at load, the first scroll event opens the modal and cancels the
    6000 ms timer. *)
Theorem first_scroll_opens key storage t y h (markup : Markup) t' :
  with_modal markup = false ->
  joined key (page_load storage t y h markup) = false ->
  250 <= t -> t <= t' ->
  past_threshold (page_load storage t y h markup) = true ->
  let r := run key [Elapse t'; ScrollEvent]
              (setupCTAModal key (page_load storage t y h markup)) in
  opened r /\ timed r = None /\ clock r = t'.
Proof.
  intros Hm Hj Ht Ht' Hpast r.
  assert (E : setupCTAModal key (page_load storage t y h markup)
              = set_timed (Some (t + 6000))
                  {| localStorage := storage; clock := t; scrollY := y;
                     innerHeight := h; has_modal := true; wired := true;
                     modal_open := false; body_overflow := overflow markup;
                     shown := false;
                     timed := None; scroll_throttle := Throttle.init;
                     feedback_text := []; feedback_error := false;
                     timeouts := []; opens := 0 |}).
  { unfold setupCTAModal. rewrite Hj. cbn [has_modal page_load]. by rewrite Hm. }
  unfold r, run. rewrite E. cbn [foldl step]. modal_simpl.
  unfold on_scroll, Throttle.call. modal_simpl. cbn [Throttle.last Throttle.init].
  replace (Z.max t t') with t' by lia.
  destruct (Z.leb_spec (250 - (t' - 0)) 0); [|lia].
  unfold scrollHandler.
  match goal with |- context [past_threshold ?q] =>
    change (past_threshold q) with (past_threshold (page_load storage t y h markup)) end.
  rewrite Hpast.
  match goal with |- context [showAfter key ?q] =>
    rewrite (showAfter_opens key q eq_refl Hj) end.
  by repeat split.
Qed.

Lemma first_scroll_opens_witness :
  opened (run default_key [Elapse 1200; ScrollEvent]
            (setupCTAModal default_key (page_load ∅ 1000 500%float 800%float plain))).
Proof.
  apply (first_scroll_opens default_key ∅ 1000 500 800 plain 1200);
    [reflexivity | reflexivity | vm_compute; discriminate
    | vm_compute; discriminate | reflexivity].
Defined.

(** Rounding counts: in a viewport of 602 pixels the product is the double
    270.90000000000003, which a scroll offset equal to it does not exceed:
    the scroll leaves the modal closed, and the next double opens it. *)
Example threshold_rounding :
  let q := setupCTAModal default_key (page_load ∅ 1000 0%float 602%float plain) in
  PrimFloat.mul 602 0.45 = 270.90000000000003%float
  /\ modal_open (run default_key [ScrollTo 270.90000000000003%float] q) = false
  /\ modal_open (run default_key [ScrollTo 270.9000000000001%float] q) = true.
Proof. vm_compute. by repeat split. Qed.

End ModalMore.

(** ** More on the form *)

Module FormMore.
Import JS CTA JSFacts FormFacts.

(** The matcher decides the shape. *)
Lemma classic_shape e : email_shape e \/ ~ email_shape e.
Proof.
  unfold email_shape, nonspace. rewrite <- email_re_spec.
  destruct (test email_re e); [by left | right; discriminate].
Qed.

(** X21: a form is accepted exactly when the three rules pass: a name of
    two or more characters once trimmed, an age that parses to an integer
    from 13 to 19, and an email that is absent, empty or of the shape
    nonspace "@" nonspace "." nonspace; the error list never holds more
    than three messages nor the same message twice. *)
Theorem accepted_iff (data : FormInput) :
  (validateForm data = [] <->
     (exists n, name data = Some n /\ (2 <= length (trim n))%nat)
     /\ (exists a, parseInt (age data) = Some a /\ 13 <= a <= 19)
     /\ (email data = None \/ email data = Some []
         \/ exists e, email data = Some e /\ email_shape e))
  /\ (length (validateForm data) <= 3)%nat
  /\ NoDup (validateForm data).
Proof.
  split; [|split].
  - rewrite validateForm_failing. split.
    + intros H.
      destruct (name_fails data) eqn:En; [discriminate|].
      destruct (age_fails data) eqn:Ea; [discriminate|].
      destruct (email_fails data) eqn:Ee; [discriminate|].
      split; [|split].
      * destruct (name data) as [n|] eqn:E.
        -- exists n. split; [reflexivity|].
           destruct (Nat.lt_ge_cases (length (trim n)) 2) as [Hlt|Hge]; [|exact Hge].
           assert (Hf : name_fails data = true)
             by (apply name_fails_iff; right; by exists n).
           congruence.
        -- assert (Hf : name_fails data = true) by (apply name_fails_iff; by left).
           congruence.
      * destruct (parseInt (age data)) as [a|] eqn:E.
        -- exists a. split; [reflexivity|].
           unfold age_fails in Ea. rewrite E in Ea. cbn in Ea.
           apply orb_false_iff in Ea as [Ea1 Ea2].
           apply orb_false_iff in Ea1 as [_ Ea1].
           apply Z.ltb_ge in Ea1, Ea2. lia.
        -- unfold age_fails in Ea. rewrite E in Ea. discriminate.
      * destruct (email data) as [[|c e]|] eqn:E; [by right; left | | by left].
        right. right. exists (c :: e). split; [reflexivity|].
        destruct (classic_shape (c :: e)) as [Hs|Hs]; [exact Hs|].
        assert (Hf : email_fails data = true).
        { apply email_fails_iff. exists (c :: e). by repeat split. }
        congruence.
    + intros ((n & Hn & Hlen) & (a & Ha & Hr) & He).
      assert (En : name_fails data = false).
      { destruct (name_fails data) eqn:E; [|reflexivity].
        apply name_fails_iff in E as [E | (m & E & Hm)]; [congruence|].
        rewrite Hn in E. injection E as <-. lia. }
      assert (Ea : age_fails data = false).
      { destruct (age_fails data) eqn:E; [|reflexivity].
        apply age_fails_iff in E. destruct E. by exists a. }
      assert (Ee : email_fails data = false).
      { destruct (email_fails data) eqn:E; [|reflexivity].
        apply email_fails_iff in E as (e & E1 & E2 & E3).
        destruct He as [He | [He | (e' & He & Hs)]]; congruence. }
      by rewrite En, Ea, Ee.
  - rewrite validateForm_failing.
    destruct (name_fails data), (age_fails data), (email_fails data); cbn; lia.
  - rewrite validateForm_failing.
    destruct messages_distinct as (D1 & D2 & D3).
    destruct (name_fails data), (age_fails data), (email_fails data); cbn;
      repeat constructor; rewrite ?elem_of_cons, ?elem_of_nil; intuition congruence.
Qed.

(** X22: an accepted, non-empty email has at least five characters, holds
    no white space at all, and contains an "@" that is not its first
    character, followed later (not at once) by a "." that is not its
    last. *)
Theorem accepted_email (data : FormInput) (e : jsstring) :
  email data = Some e -> e <> [] ->
  ~ In email_error (validateForm data) ->
  (5 <= length e)%nat
  /\ Forall (fun c => is_whitespace c = false) e
  /\ (exists a b c, e = a ++ [64%N] ++ b ++ [46%N] ++ c
                    /\ a <> [] /\ b <> [] /\ c <> []).
Proof.
  intros He Hne Hok.
  assert (Hs : email_shape e).
  { destruct (classic_shape e) as [Hs|Hs]; [exact Hs|]. exfalso. apply Hok.
    apply email_error_iff, email_fails_iff. by exists e. }
  destruct Hs as (a & b & c & -> & [Ha1 Ha2] & [Hb1 Hb2] & [Hc1 Hc2]).
  split; [|split].
  - rewrite !length_app. cbn.
    destruct a; [congruence|]. destruct b; [congruence|]. destruct c; [congruence|].
    cbn. lia.
  - repeat (apply Forall_app; split); try assumption; by repeat constructor.
  - by exists a, b, c.
Qed.

Lemma accepted_email_witness :
  (5 <= length (js "a@b.c"))%nat
  /\ Forall (fun c => is_whitespace c = false) (js "a@b.c").
Proof.
  destruct (accepted_email {| name := None; age := None; email := Some (js "a@b.c") |}
              (js "a@b.c") eq_refl ltac:(discriminate)) as (H1 & H2 & _).
  - intros Hin. apply email_error_iff in Hin. vm_compute in Hin. discriminate.
  - by split.
Defined.

Lemma trimStart_split s :
  exists pre, s = pre ++ trimStart s /\ Forall (fun c => is_whitespace c = true) pre.
Proof.
  induction s as [|c r (pre & E & Hp)]; [by exists []|]. cbn.
  destruct (is_whitespace c) eqn:Ec.
  - exists (c :: pre). split; [cbn; by f_equal | by constructor].
  - by exists [].
Qed.

(** X23: trimming removes white space from the two ends and nothing else:
    the name that the submit handler validates and stores is the typed one
    between a white-space prefix and a white-space suffix, and it neither
    starts nor ends with white space. *)
Theorem trim_only_ends (s : jsstring) :
  exists pre post,
    s = pre ++ trim s ++ post
    /\ Forall (fun c => is_whitespace c = true) pre
    /\ Forall (fun c => is_whitespace c = true) post
    /\ clean_front (trim s) /\ clean_front (rev (trim s)).
Proof.
  destruct (trimStart_split s) as (pre & E1 & Hpre).
  destruct (trimStart_split (rev (trimStart s))) as (q & E2 & Hq).
  exists pre, (rev q). split; [|split; [exact Hpre|split; [|split]]].
  - unfold trim, trimEnd. rewrite <- rev_app_distr, <- E2, rev_involutive. exact E1.
  - apply Forall_forall. intros x Hx%list_elem_of_In. apply in_rev in Hx.
    apply (proj1 (Forall_forall _ _) Hq). by apply list_elem_of_In.
  - apply trimEnd_clean_front, trimStart_clean.
  - unfold trim, trimEnd. rewrite rev_involutive. apply trimStart_clean.
Qed.

Lemma digits_junk s c rest : forall acc,
  digit c = None -> digits (s ++ c :: rest) acc = digits s acc.
Proof.
  induction s as [|x s IH]; intros acc Hc; cbn.
  - by rewrite Hc.
  - destruct (digit x); [by apply IH | reflexivity].
Qed.

Lemma trimStart_app s t : trimStart s <> [] -> trimStart (s ++ t) = trimStart s ++ t.
Proof.
  induction s as [|x s IH]; cbn; [congruence|].
  destruct (is_whitespace x); [exact IH | reflexivity].
Qed.

(** [parseInt] by cases on the first character after the white space. *)
Lemma parseInt_cases s :
  parseInt (Some s)
  = match trimStart s with
    | [] => None
    | x :: r =>
        if (x =? 45)%N then (fun n => -1 * n) <$> digits r None
        else if (x =? 43)%N then (fun n => 1 * n) <$> digits r None
        else (fun n => 1 * n) <$> digits (x :: r) None
    end.
Proof.
  unfold parseInt. cbn [ToString]. destruct (trimStart s) as [|x r]; [reflexivity|].
  destruct (N.eqb_spec x 45) as [->|N45]; [by destruct (digits r None)|].
  destruct (N.eqb_spec x 43) as [->|N43]; [by destruct (digits r None)|].
  destruct x as [|q]; [by destruct (digits _ None)|].
  repeat (destruct q as [q|q|]; try (by destruct (digits _ None)); try congruence).
Qed.

(** X24: [parseInt] stops at the first character that is no digit, so the
    age rule ignores whatever follows the number: a text that passes (or
    fails) still does when it is followed by a non-digit and anything
    else. *)
Theorem age_ignores_tail (s : jsstring) (c : N) (rest : jsstring) (n : Z) :
  parseInt (Some s) = Some n -> digit c = None ->
  parseInt (Some (s ++ c :: rest)) = Some n
  /\ forall nm em,
       age_fails {| name := nm; age := Some (s ++ c :: rest); email := em |}
       = age_fails {| name := nm; age := Some s; email := em |}.
Proof.
  intros Hs Hc.
  assert (E : parseInt (Some (s ++ c :: rest)) = parseInt (Some s)).
  { rewrite !parseInt_cases in *.
    destruct (trimStart s) as [|x r] eqn:Et; [discriminate|].
    rewrite trimStart_app by (rewrite Et; discriminate). rewrite Et.
    cbn [app]. rewrite app_comm_cons, !digits_junk by exact Hc. reflexivity. }
  split; [by rewrite E|]. intros nm em. unfold age_fails. cbn [age]. by rewrite E.
Qed.

Lemma age_ignores_tail_witness :
  parseInt (Some (js "15 years")) = Some 15
  /\ parseInt (Some (js "  +16.9")) = Some 16.
Proof.
  split.
  - apply (age_ignores_tail (js "15") 32%N (js "years") 15); reflexivity.
  - apply (age_ignores_tail (js "  +16") 46%N (js "9") 16); reflexivity.
Defined.

End FormMore.
